(** * A keyword-watching notification bot: the change-detection cycle

    Shallow embedding of [main.py]: the fetch-with-retry loop, the keyword
    extractor, the snapshot store, the per-site cycle [check_site], the batch
    dispatcher [send_in_chunks] and the [/force-check] handler, followed by
    the properties of the cycle.

    Python values are modelled as follows.
    - [str] is a list of Unicode code points ([N]); [len] is [length] and
      comparison is lexicographic on code points, as in Python.
    - a [set] of [str] is a [gset str]; [list(s)] is [elements s] and
      [set(l)] is [list_to_set l].
    - the file system is a finite map from site names to file contents
      ([links_file_for] is an injective function of the site name).
    - the outside world (HTTP responses, the outcome of a Telegram call, the
      outcome of a file write) is an input tape consumed by the program; what
      the program does to the outside world is recorded in a log.
    - an exception that is caught is the branch of its [except]; the one that
      is not caught inside [check_site], the [ValueError] of [urljoin], makes
      the call end with [Raised]. *)

From Stdlib Require Import Ascii String.
From stdpp Require Import base numbers option list sorting gmap sets.

Local Open Scope list_scope.

(** ** Python strings *)

Module Py.

Definition char := N.
Abbreviation str := (list N).

(** A string literal of the source whose characters are all ASCII. *)
Definition lit (s : string) : str :=
  map N_of_ascii (list_ascii_of_string s).

(** [a < b] and [a <= b] on [str]: lexicographic on code points, a proper
    prefix is smaller. *)
Fixpoint ltb (a b : str) : bool :=
  match a, b with
  | _, [] => false
  | [], _ :: _ => true
  | x :: a', y :: b' => (x <? y)%N || ((x =? y)%N && ltb a' b')
  end.

Fixpoint leb (a b : str) : bool :=
  match a, b with
  | [], _ => true
  | _ :: _, [] => false
  | x :: a', y :: b' => (x <? y)%N || ((x =? y)%N && leb a' b')
  end.

Definition le (a b : str) : Prop := leb a b = true.

(** [s.startswith(p)] *)
Fixpoint startswith (p s : str) : bool :=
  match p, s with
  | [], _ => true
  | _ :: _, [] => false
  | x :: p', y :: s' => (x =? y)%N && startswith p' s'
  end.

(** [p in s] *)
Fixpoint contains (p s : str) : bool :=
  startswith p s ||
  match s with
  | [] => false
  | _ :: s' => contains p s'
  end.

(** The leftmost occurrence of [sep] in [s]: what is before it and what is
    after it. [None] when [sep] does not occur. *)
Fixpoint split_at_first (sep s : str) : option (str * str) :=
  if startswith sep s then Some ([], drop (length sep) s)
  else match s with
       | [] => None
       | c :: s' =>
           match split_at_first sep s' with
           | Some (h, t) => Some (c :: h, t)
           | None => None
           end
       end.

(** [s.split(sep, 1)] for a non-empty [sep]. *)
Definition split1 (s sep : str) : list str :=
  match split_at_first sep s with
  | Some (h, t) => [h; t]
  | None => [s]
  end.

(** [sep.join(parts)] *)
Fixpoint join (sep : str) (parts : list str) : str :=
  match parts with
  | [] => []
  | [p] => p
  | p :: rest => p ++ sep ++ join sep rest
  end.

(** [c.isspace()], the characters [str.split()] splits on. *)
Definition isspace (c : char) : bool :=
  ((9 <=? c) && (c <=? 13) || (28 <=? c) && (c <=? 32) ||
   (c =? 133) || (c =? 160) || (c =? 5760) ||
   (8192 <=? c) && (c <=? 8202) || (c =? 8232) || (c =? 8233) ||
   (c =? 8239) || (c =? 8287) || (c =? 12288))%N.

(** [s.split()]: the maximal runs of non-space characters. [cur] is the run
    being read. *)
Fixpoint split_ws_from (cur s : str) : list str :=
  match s with
  | [] => match cur with [] => [] | _ => [cur] end
  | c :: s' =>
      if isspace c
      then match cur with
           | [] => split_ws_from [] s'
           | _ => cur :: split_ws_from [] s'
           end
      else split_ws_from (cur ++ [c]) s'
  end.

Definition split_ws (s : str) : list str := split_ws_from [] s.

(** [s.strip()] *)
Fixpoint lstrip (s : str) : str :=
  match s with
  | c :: s' => if isspace c then lstrip s' else s
  | [] => []
  end.

Definition strip (s : str) : str := rev (lstrip (rev (lstrip s))).

(** [html.escape(s, quote)]. The library replaces [&] first and then [<],
    [>], and with [quote] also the two quote characters; none of the
    replacement texts contains a character replaced later, so the result is
    the character-wise substitution. *)
Definition escape_char (quote : bool) (c : char) : str :=
  if (c =? 38)%N then lit "&amp;"
  else if (c =? 60)%N then lit "&lt;"
  else if (c =? 62)%N then lit "&gt;"
  else if quote && (c =? 34)%N then lit "&quot;"
  else if quote && (c =? 39)%N then lit "&#x27;"
  else [c].

Definition html_escape (s : str) (quote : bool) : str :=
  flat_map (escape_char quote) s.

(** [bool(s)] for an optional string (an environment variable, a query
    parameter): [None] and the empty string are falsy. *)
Definition truthy (o : option str) : bool :=
  match o with
  | Some (_ :: _) => true
  | _ => false
  end.

(** [str.lower()] and [str.upper()] on the ASCII letters; other code points
    are left as they are. The development is parametric in the two case
    functions; these are the instances used on concrete inputs. *)
Definition ascii_lower_char (c : char) : char :=
  if ((65 <=? c) && (c <=? 90))%N then (c + 32)%N else c.
Definition ascii_upper_char (c : char) : char :=
  if ((97 <=? c) && (c <=? 122))%N then (c - 32)%N else c.
Definition ascii_lower (s : str) : str := map ascii_lower_char s.
Definition ascii_upper (s : str) : str := map ascii_upper_char s.

End Py.

Import Py.

(** ** Configuration *)

Record site_info := { url : str; base_url : str }.

(** The module-level settings of the program: three environment variables
    and the two tables. *)
Record settings := {
  BOT_TOKEN : option str;
  CHAT_ID : option str;
  FORCE_TOKEN : option str;
  KEYWORDS : list str;
  SITES : list (str * site_info);
}.

(** The tables as the source has them. *)
Module Deployed.

Definition KEYWORDS : list str :=
  [lit "dental"; lit "dentist"; lit "assistant surgeon";
   lit "neet mds"; lit "neet mds 2025"; lit "neet mds 2026"].

Definition SITES : list (str * site_info) :=
  [(lit "mrb",
    {| url := lit "https://www.mrb.tn.gov.in/notifications.html";
       base_url := lit "https://www.mrb.tn.gov.in/" |});
   (lit "neetmds",
    {| url := lit "https://natboard.edu.in/viewnbeexam?exam=neetmds";
       base_url := lit "https://natboard.edu.in/" |});
   (lit "nbehome",
    {| url := lit "https://natboard.edu.in/index";
       base_url := lit "https://natboard.edu.in/" |});
   (lit "mcc_mds_counselling",
    {| url := lit "https://mcc.nic.in/mds-counselling/";
       base_url := lit "https://mcc.nic.in/" |});
   (lit "tnmedicalselection",
    {| url := lit "https://tnmedicalselection.net/Notification.aspx";
       base_url := lit "https://tnmedicalselection.net/" |})].

Definition config (bot_token chat_id force_token : option str) : settings :=
  Build_settings bot_token chat_id force_token KEYWORDS SITES.

End Deployed.

(** The library functions whose definition lies outside the program:
    [str.lower], [str.upper] and [urllib.parse.urljoin]. The last one raises a
    [ValueError] on some links (a host that opens a bracket and never closes
    it, for one): [urljoin_raises base href] tells on which, and [urljoin] is
    what the call returns on the others. *)
Record runtime := {
  lower : str → str;
  upper : str → str;
  urljoin : str → str → str;
  urljoin_raises : str → str → bool;
}.

(** ** The outside world *)

(** An [<a href=...>] element as [soup.find_all("a", href=True)] yields it:
    its [get_text(separator=" ")] and its [href] attribute. *)
Record anchor := { get_text : str; href : str }.

(** The body of a successful response, as the anchors the parser finds. *)
Definition page := list anchor.

(** A snapshot file: a JSON list of strings, or something [json.load]
    rejects. *)
Inductive file :=
| Corrupt
| Json (data : list str).

(** The outcome of the POST to the Telegram API. *)
Inductive post_result :=
| Status (status_code : nat)
| PostRaised.

(** What comes of the write of a snapshot file: it goes through; or
    [open(fpath, "w")] raises, and the file is what it was, or is still
    missing; or the file is opened, which creates or empties it, and the write
    fails after that, which leaves an incomplete text that [json.load]
    rejects. *)
Inductive write_result :=
| Written
| OpenRaised
| DumpRaised.

#[export] Instance write_result_eq_dec : EqDecision write_result.
Proof. solve_decision. Defined.

(** How a call ends: it returns, or an exception leaves it. *)
Inductive outcome :=
| Returned
| Raised.

#[export] Instance outcome_eq_dec : EqDecision outcome.
Proof. solve_decision. Defined.

(** The lines the program prints (without time stamps and exception texts). *)
Inductive line :=
| LoadFailed (site_name : str)
| SaveFailed (site_name : str)
| CredentialsMissing
| AlertSent
| SendError (status_code : nat)
| SendException
| AttemptFailed (attempt : nat) (url : str)
| Checking (site_key : str)
| FetchFailed (site_key : str)
| Initialized (site_key : str)
| NewUpdates (n : nat) (site_key : str)
| NoNewUpdates (site_key : str)
| ForceCheckTriggered
| ForceCheckError.

(** What the program does, in order: a GET and whether it was answered with
    a page, a [time.sleep], a call of [send_telegram_message] with the value it
    returned, a call of [save_seen_links] with the snapshot it is given and
    whether the write went through, a printed line. *)
Inductive event :=
| Get (url : str) (ok : bool)
| Sleep (secs : nat)
| Alert (html_message : str) (sent : bool)
| Dump (site_name : str) (data : list str) (ok : bool)
| Say (l : line).

(** The state of the world: the snapshot files, what the environment will
    answer to the next GETs, POSTs and file writes (an exhausted tape answers
    with a failure, for a write at the opening of the file), and the log of
    what the program did so far. *)
Record world := {
  files : gmap str file;
  gets : list (option page);
  posts : list post_result;
  writes : list write_result;
  log : list event;
}.

Definition set_files (f : gmap str file) (w : world) : world :=
  {| files := f; gets := gets w; posts := posts w; writes := writes w;
     log := log w |}.
Definition set_gets (g : list (option page)) (w : world) : world :=
  {| files := files w; gets := g; posts := posts w; writes := writes w;
     log := log w |}.
Definition set_posts (p : list post_result) (w : world) : world :=
  {| files := files w; gets := gets w; posts := p; writes := writes w;
     log := log w |}.
Definition set_writes (b : list write_result) (w : world) : world :=
  {| files := files w; gets := gets w; posts := posts w; writes := b;
     log := log w |}.
Definition set_log (l : list event) (w : world) : world :=
  {| files := files w; gets := gets w; posts := posts w; writes := writes w;
     log := l |}.

(** ** Programs with effects on the world *)

Definition io (A : Type) : Type := world → A * world.

Definition result {A} (m : io A) (w : world) : A := (m w).1.
Definition exec {A} (m : io A) (w : world) : world := (m w).2.

#[export] Instance io_ret : MRet io := λ A a w, (a, w).
#[export] Instance io_bind : MBind io :=
  λ A B f m w, f (m w).1 (m w).2.

Definition emit (e : event) : io unit :=
  λ w, (tt, set_log (log w ++ [e]) w).

Definition print (l : line) : io unit := emit (Say l).

(** [requests.get(url, ...)] followed by [raise_for_status()]: [None] when
    either raises. *)
Definition http_get (url : str) : io (option page) :=
  λ w, let r := match gets w with r :: _ => r | [] => None end in
       (r, set_log (log w ++ [Get url (bool_decide (is_Some r))])
             (set_gets (tail (gets w)) w)).

Definition http_post : io post_result :=
  λ w, (match posts w with r :: _ => r | [] => PostRaised end,
        set_posts (tail (posts w)) w).

Definition sleep (secs : nat) : io unit := emit (Sleep secs).

(** ** Helpers: persistence *)

Definition load_seen_links (site_name : str) : io (option (gset str)) :=
  λ w, match files w !! site_name with
       | None => (None, w)
       | Some (Json data) => (Some (list_to_set data), w)
       | Some Corrupt => (Some ∅, exec (print (LoadFailed site_name)) w)
       end.

(** The file is opened with mode ["w"]: once it is open its previous content
    is gone, whatever becomes of [json.dump]. *)
Definition save_seen_links (site_name : str) (links_set : gset str) : io unit :=
  λ w, let data := elements links_set in
       let w' := set_writes (tail (writes w)) w in
       match writes w with
       | Written :: _ =>
           (tt, set_log (log w ++ [Dump site_name data true])
                  (set_files (<[site_name := Json data]> (files w)) w'))
       | DumpRaised :: _ =>
           (tt, set_log (log w ++ [Dump site_name data false;
                                   Say (SaveFailed site_name)])
                  (set_files (<[site_name := Corrupt]> (files w)) w'))
       | _ =>
           (tt, set_log (log w ++ [Dump site_name data false;
                                   Say (SaveFailed site_name)]) w')
       end.

(** ** The program *)

Section Program.

Context (rt : runtime) (cfg : settings).

(** *** Telegram *)

Definition send_telegram_message (html_message : str) : io bool :=
  if negb (truthy (BOT_TOKEN cfg)) || negb (truthy (CHAT_ID cfg))
  then print CredentialsMissing;;
       emit (Alert html_message false);;
       mret false
  else resp ← http_post;
       match resp with
       | Status status_code =>
           if status_code =? 200
           then print AlertSent;;
                emit (Alert html_message true);;
                mret true
           else print (SendError status_code);;
                emit (Alert html_message false);;
                mret false
       | PostRaised =>
           print SendException;;
           emit (Alert html_message false);;
           mret false
       end.

(** *** Fetch with retry *)

(** The loop [for attempt in range(1, retries + 1)], with [todo] iterations
    left to run. *)
Fixpoint fetch_attempts (url : str) (retries delay : nat)
    (todo attempt : nat) : io (option page) :=
  match todo with
  | 0 => mret None
  | S todo' =>
      resp ← http_get url;
      match resp with
      | Some body => mret (Some body)
      | None =>
          print (AttemptFailed attempt url);;
          (if attempt <? retries then sleep delay else mret tt);;
          fetch_attempts url retries delay todo' (S attempt)
      end
  end.

Definition fetch_with_retry (url : str) (retries delay : nat)
    : io (option page) :=
  fetch_attempts url retries delay retries 1.

(** *** Core scraping / compare logic *)

Definition title_raw (a : anchor) : str :=
  join (lit " ") (split_ws (get_text a)).

(** The test [any(kw in title_lower for kw in KEYWORDS)]. *)
Definition keyword_match (a : anchor) : bool :=
  let title_lower := lower rt (title_raw a) in
  existsb (λ kw, contains kw title_lower) (KEYWORDS cfg).

Definition canonical (site : site_info) (a : anchor) : str :=
  let full_url := urljoin rt (base_url site) (strip (href a)) in
  title_raw a ++ lit "::" ++ full_url.

(** The loop over the anchors that builds [current_links]. *)
Definition extract (site : site_info) (anchors : page) : gset str :=
  fold_left
    (λ current_links a,
       if keyword_match a
       then current_links ∪ {[ canonical site a ]}
       else current_links)
    anchors ∅.

(** [heading, url = itm.split("::", 1)], with the fallback of the
    [except ValueError] branch when the list has not two elements. *)
Definition heading_url (itm : str) : str * str :=
  match split1 itm (lit "::") with
  | [heading; url] => (heading, url)
  | _ => (itm, itm)
  end.

Definition quote_char : char := 34%N.

Definition render (itm : str) : str :=
  let '(heading, url) := heading_url itm in
  lit "<a href=" ++ [quote_char] ++ html_escape url true ++ [quote_char] ++
  lit ">" ++ html_escape heading true ++ lit "</a>".

(** The text of one notification: the header naming the site, then the
    fragments of the batch separated by blank lines. *)
Definition message (site_key : str) (batch : list str) : str :=
  [128680%N] ++ lit " <b>" ++ html_escape (upper rt site_key) true ++
  lit " Update(s)</b>" ++ [10%N; 10%N] ++ join [10%N; 10%N] batch.

#[local] Instance le_dec : RelDecision Py.le := λ a b, decide (leb a b = true).

(** [sorted(items)] *)
Definition sorted (items : gset str) : list str :=
  merge_sort Py.le (elements items).

(** The loop of [send_in_chunks] over the sorted items still to handle, and
    the flush after it. *)
Fixpoint chunk_loop (site_key : str) (todo : list str)
    (batch : list str) (total_len : nat) : io unit :=
  match todo with
  | [] =>
      match batch with
      | [] => mret tt
      | _ => send_telegram_message (message site_key batch);; mret tt
      end
  | itm :: todo' =>
      let part := render itm in
      if 3500 <? total_len + length part
      then send_telegram_message (message site_key batch);;
           chunk_loop site_key todo' [part] (length part)
      else chunk_loop site_key todo' (batch ++ [part]) (total_len + length part)
  end.

Definition send_in_chunks (site_key : str) (items : gset str) : io unit :=
  chunk_loop site_key (sorted items) [] 0.

(** The cycle of a site on a page all of whose retained links [urljoin]
    accepts. *)
Definition check_site (site_key : str) (site : site_info) : io unit :=
  print (Checking site_key);;
  last_links ← load_seen_links site_key;
  resp ← fetch_with_retry (url site) 3 5;
  match resp with
  | None => print (FetchFailed site_key)
  | Some anchors =>
      let current_links := extract site anchors in
      match last_links with
      | None =>
          save_seen_links site_key current_links;;
          print (Initialized site_key)
      | Some last_links =>
          let new_items := current_links ∖ last_links in
          if decide (new_items ≠ ∅)
          then print (NewUpdates (size new_items) site_key);;
               send_in_chunks site_key new_items;;
               save_seen_links site_key (last_links ∪ new_items)
          else print (NoNewUpdates site_key)
      end
  end.

(** *** One pass over the sites, and the trigger *)

(** [for k, info in SITES.items(): check_site(k, info)], when no cycle
    raises. *)
Fixpoint check_sites (sites : list (str * site_info)) : io unit :=
  match sites with
  | [] => mret tt
  | (k, info) :: rest => check_site k info;; check_sites rest
  end.

(** *** Exceptions

    The file operations, the POST and the GETs are each inside a [try]; the
    loop that builds [current_links] is not. [urljoin] raises a [ValueError]
    on some links, and that exception leaves [check_site] at the first
    retained anchor with such a link, before anything is compared, sent or
    saved. *)

(** The loop over the anchors raises. *)
Definition extract_raises (site : site_info) (anchors : page) : bool :=
  existsb
    (λ a, keyword_match a &&
          urljoin_raises rt (base_url site) (strip (href a)))
    anchors.

(** [check_site] on any page. *)
Definition check_site_or_raise (site_key : str) (site : site_info)
    : io outcome :=
  print (Checking site_key);;
  last_links ← load_seen_links site_key;
  resp ← fetch_with_retry (url site) 3 5;
  match resp with
  | None => print (FetchFailed site_key);; mret Returned
  | Some anchors =>
      if extract_raises site anchors then mret Raised
      else
        let current_links := extract site anchors in
        match last_links with
        | None =>
            save_seen_links site_key current_links;;
            print (Initialized site_key);;
            mret Returned
        | Some last_links =>
            let new_items := current_links ∖ last_links in
            if decide (new_items ≠ ∅)
            then print (NewUpdates (size new_items) site_key);;
                 send_in_chunks site_key new_items;;
                 save_seen_links site_key (last_links ∪ new_items);;
                 mret Returned
            else print (NoNewUpdates site_key);; mret Returned
        end
  end.

(** [for k, info in SITES.items(): check_site(k, info)] inside a [try]: the
    first cycle that raises ends the loop. *)
Fixpoint check_sites_or_raise (sites : list (str * site_info)) : io outcome :=
  match sites with
  | [] => mret Returned
  | (k, info) :: rest =>
      r ← check_site_or_raise k info;
      match r with
      | Returned => check_sites_or_raise rest
      | Raised => mret Raised
      end
  end.

(** The body of the thread that [/force-check] starts. *)
Definition run_once : io unit :=
  print ForceCheckTriggered;;
  r ← check_sites_or_raise (SITES cfg);
  match r with
  | Returned => mret tt
  | Raised => print ForceCheckError
  end.

(** What a handler answers: the body and the status code. *)
Record response := { body : str; status : nat }.

(** The handler of [GET /force-check?token=...]: its answer and the thread
    it starts, if any. The thread runs after the handler has answered. *)
Definition force_check (token : option str) : response * option (io unit) :=
  if truthy (FORCE_TOKEN cfg) && negb (bool_decide (token = FORCE_TOKEN cfg))
  then ({| body := lit "Unauthorized"; status := 403 |}, None)
  else ({| body := lit "Triggered"; status := 200 |}, Some run_once).

End Program.

(** ** Observations on a log *)

(** The calls of [send_telegram_message], with their results. *)
Definition alerts (l : list event) : list (str * bool) :=
  omap (λ e, match e with Alert text d => Some (text, d) | _ => None end) l.

(** The snapshots handed to [json.dump], with the site and the outcome. *)
Definition dumps (l : list event) : list (str * list str * bool) :=
  omap (λ e, match e with Dump k data ok => Some (k, data, ok) | _ => None end) l.

(** The sites whose cycle was started. *)
Definition cycles (l : list event) : list str :=
  omap (λ e, match e with Say (Checking k) => Some k | _ => None end) l.

(** The log of [k] failed attempts, the first of them numbered [attempt]. *)
Fixpoint failed_attempts (url : str) (retries delay : nat)
    (k attempt : nat) : list event :=
  match k with
  | 0 => []
  | S k' =>
      [Get url false; Say (AttemptFailed attempt url)] ++
      (if attempt <? retries then [Sleep delay] else []) ++
      failed_attempts url retries delay k' (S attempt)
  end.

(** ** The diff engine, in the words of the specification

    [diff(current, previous)]: on an uninitialised site nothing is new and the
    next state is [current]; otherwise the new items are [current − previous]
    and the next state is [previous ∪ newItems]. *)
Definition diff (current : gset str) (previous : option (gset str))
    : gset str * gset str :=
  match previous with
  | None => (∅, current)
  | Some previous => (current ∖ previous, previous ∪ (current ∖ previous))
  end.

(** ** Batches *)

(** [total_len] of a batch: the lengths of its fragments added up. *)
Definition total (batch : list str) : nat := sum_list_with length batch.

(** The batches that [chunk_loop] flushes, in order, when the fragments
    still to come are [parts] and the current batch is [batch]. *)
Fixpoint flushed (parts : list str) (batch : list str) : list (list str) :=
  match parts with
  | [] => match batch with [] => [] | _ => [batch] end
  | part :: parts' =>
      if 3500 <? total batch + length part
      then batch :: flushed parts' [part]
      else flushed parts' (batch ++ [part])
  end.

(** ** Runs of the program *)

(** The environment's answers for the next cycle. *)
Definition refill (g : list (option page)) (p : list post_result)
    (b : list write_result) (w : world) : world :=
  set_gets g (set_posts p (set_writes b w)).


(** The same where no write fails after the file was opened. *)
Definition untorn_step (rt : runtime) (cfg : settings) (w w' : world) : Prop :=
  ∃ k info g p b,
    (k, info) ∈ SITES cfg ∧ (DumpRaised ∉ b) ∧
    w' = exec (check_site_or_raise rt cfg k info) (refill g p b w).

(** The program starts with no snapshot on disk. *)
Definition initial : world :=
  {| files := ∅; gets := []; posts := []; writes := []; log := [] |}.



(** [itm] is in a notification that was handed to [send_telegram_message],
    whatever came of it. *)
Definition dispatched (itm : str) (l : list event) : bool :=
  existsb (λ '(text, _), contains (render itm) text) (alerts l).


(** The stored snapshot of [site_key] holds [itm]. *)
Definition stored (site_key itm : str) (w : world) : Prop :=
  ∃ data, files w !! site_key = Some (Json data) ∧ itm ∈ data.

(** The events that none of the observations above looks at: no call of
    [send_telegram_message], no snapshot write, no line that opens a cycle or
    closes a first run. *)
Definition plain (e : event) : bool :=
  match e with
  | Alert _ _ | Dump _ _ _ | Say (Checking _) | Say (Initialized _) => false
  | _ => true
  end.

(** The events of the dispatcher: everything but a snapshot write and the
    lines that open a cycle or close a first run. *)
Definition notice (e : event) : bool :=
  match e with
  | Dump _ _ _ | Say (Checking _) | Say (Initialized _) => false
  | _ => true
  end.

(** [w'] is [w] after some steps that wrote no file and logged only events
    of the class [P]. *)
Definition quiet (P : event → bool) (w w' : world) : Prop :=
  files w' = files w ∧ writes w' = writes w ∧
  ∃ t, log w' = log w ++ t ∧ forallb P t = true.

(** Every run of [m] stays within the relation [R]. *)
Definition within {A} (R : relation world) (m : io A) : Prop :=
  ∀ w, R w (exec m w).

(** What [todo] attempts obtain from the tape of answers: the first page
    among the first [todo] answers. *)
Fixpoint answered (todo : nat) (tape : list (option page)) : option page :=
  match todo, tape with
  | S _, Some body :: _ => Some body
  | S todo', None :: tape' => answered todo' tape'
  | _, _ => None
  end.

(** The write that [save_seen_links] is about to make goes through. *)
Definition write_ok (w : world) : bool :=
  match writes w with
  | Written :: _ => true
  | _ => false
  end.

(** What comes of the write that [save_seen_links] is about to make. *)
Definition next_write (w : world) : write_result :=
  match writes w with
  | r :: _ => r
  | [] => OpenRaised
  end.

(** The files after a write of [data] as the snapshot of [site_name]. *)
Definition saved (site_name : str) (data : list str) (w : world)
    : gmap str file :=
  match next_write w with
  | Written => <[site_name := Json data]> (files w)
  | DumpRaised => <[site_name := Corrupt]> (files w)
  | OpenRaised => files w
  end.

(** The log of a call of [save_seen_links]. *)
Definition save_log (site_name : str) (data : list str) (ok : bool)
    : list event :=
  if ok then [Dump site_name data true]
  else [Dump site_name data false; Say (SaveFailed site_name)].

(** ** The snapshot file of a site *)

(** [os.path.join(a, b)] on a POSIX system. *)
Definition path_join (a b : str) : str :=
  if startswith (lit "/") b then b
  else match last a with
       | None => b
       | Some c => if (c =? 47)%N then a ++ b else a ++ lit "/" ++ b
       end.

(** [links_file_for(site_name)] for the storage directory [STORAGE_DIR]. The
    [os.makedirs] before the [return], whose failure is ignored, does not
    change the result. *)
Definition links_file_for (STORAGE_DIR site_name : str) : str :=
  path_join STORAGE_DIR (lit "seen_links_" ++ site_name ++ lit ".json").

(** ** More observations *)

(** The number of GETs and of waits in a log. *)
Definition requests (l : list event) : nat :=
  sum_list_with (λ e, match e with Get _ _ => 1 | _ => 0 end) l.

Definition naps (l : list event) : nat :=
  sum_list_with (λ e, match e with Sleep _ => 1 | _ => 0 end) l.

(** The events that are neither a GET nor a wait. *)
Definition silent (e : event) : bool :=
  match e with
  | Get _ _ | Sleep _ => false
  | _ => true
  end.

(** [w'] is [w] after some steps that made at most [n] GETs and [m]
    waits. *)
Definition spends (n m : nat) (w w' : world) : Prop :=
  ∃ t, log w' = log w ++ t ∧ requests t ≤ n ∧ naps t ≤ m.

(** No character of [s] is white space. *)
Definition spaceless (s : str) : bool :=
  forallb (λ c, negb (isspace c)) s.

(** [s] is empty or white space only. *)
Definition blank (s : str) : bool := forallb isspace s.

(** ** Concrete inputs *)

Module Sample.

(** The library functions on the inputs used below: ASCII case mapping,
    [urljoin] of a base ending in a slash with a relative path, and the
    [ValueError] of [urljoin] on a link whose host opens a bracket that is
    never closed. *)
Definition rt : runtime :=
  {| lower := ascii_lower; upper := ascii_upper;
     urljoin := λ base href, base ++ href;
     urljoin_raises := λ base href,
       contains (lit "//[") href && negb (contains (lit "]") href) |}.

Definition cfg : settings :=
  Deployed.config (Some (lit "123456:token")) (Some (lit "-100200300"))
    (Some (lit "s3cret")).

Definition mrb : site_info :=
  {| url := lit "https://www.mrb.tn.gov.in/notifications.html";
     base_url := lit "https://www.mrb.tn.gov.in/" |}.

Definition notification : anchor :=
  {| get_text := lit "New NEET MDS 2025 Notification";
     href := lit "docs/update.pdf" |}.

Definition holidays : anchor :=
  {| get_text := lit "Staff Holiday List"; href := lit "holidays.pdf" |}.

Definition recruitment : anchor :=
  {| get_text := lit "  Assistant   Surgeon (Dental) recruitment ";
     href := lit " docs/as.pdf " |}.

Definition page1 : page := [notification; holidays].
Definition page2 : page := [recruitment; notification; holidays].

(** The first cycle of the site: the second GET is answered, the write goes
    through. *)
Definition w0 : world :=
  {| files := ∅; gets := [None; Some page1]; posts := []; writes := [Written];
     log := [] |}.

Definition w1 : world := exec (check_site rt cfg (lit "mrb") mrb) w0.

(** The world before a second cycle that finds the same page, ... *)
Definition w2 : world := refill [Some page1] [Status 200] [Written] w1.

(** ... before one whose three attempts all fail, ... *)
Definition w3 : world :=
  refill [None; None; None; Some page2] [Status 200] [Written] w1.

(** ... and before one that finds a new notice. *)
Definition w4 : world := refill [Some page2] [Status 200] [Written] w1.

(** An item whose heading is eleven characters, [n] apostrophes (six characters
    each once escaped) and the character [c]. *)
Definition long_item (n : nat) (c : char) : str :=
  lit "Dental jobs" ++ replicate n 39%N ++ [c] ++ lit "::u".

(** Four items whose fragments have 1000 characters each. *)
Definition four_items : gset str :=
  list_to_set [long_item 162 100%N; long_item 162 98%N;
               long_item 162 97%N; long_item 162 99%N].


(** A cycle that finds a new notice while Telegram rejects the message, and
    the cycle after it, on the same page, with Telegram working again. *)
Definition w5 : world :=
  exec (check_site rt cfg (lit "mrb") mrb)
    (refill [Some page2] [Status 500] [Written] w1).


(** Settings whose only keyword is written in upper case. *)
Definition cfg_upper : settings :=
  {| BOT_TOKEN := BOT_TOKEN cfg; CHAT_ID := CHAT_ID cfg;
     FORCE_TOKEN := FORCE_TOKEN cfg; KEYWORDS := [lit "NEET MDS"];
     SITES := SITES cfg |}.

(** A title with the delimiter in it. *)
Definition results : anchor :=
  {| get_text := lit "Dental :: Results"; href := lit "docs/r.pdf" |}.

(** An anchor around an image: a space, a line feed, a tab and a no-break
    space. *)
Definition icon : anchor :=
  {| get_text := [32; 10; 9; 160]%N; href := lit "img.png" |}.


(** The world before a cycle that finds a new notice and cannot open the
    file. *)
Definition w8 : world := refill [Some page2] [Status 200] [OpenRaised] w1.

(** The world before a first cycle that cannot open the file. *)
Definition w9 : world :=
  {| files := ∅; gets := [Some page1]; posts := []; writes := [OpenRaised];
     log := [] |}.

(** The world before a cycle that finds a new notice and whose write fails
    after the file was opened. *)
Definition w10 : world := refill [Some page2] [Status 200] [DumpRaised] w1.

(** A retained anchor whose link [urljoin] rejects. *)
Definition broken : anchor :=
  {| get_text := lit "NEET MDS counselling schedule";
     href := lit "http://[mcc.nic.in/schedule.pdf" |}.

Definition page3 : page := [notification; broken; holidays].

(** The world before a pass in which the first site answers with that page
    and the others with pages without anchors. *)
Definition w11 : world :=
  {| files := ∅; gets := [Some page3; Some []; Some []; Some []; Some []];
     posts := []; writes := [Written; Written; Written; Written; Written];
     log := [] |}.

(** The same with the first site initialised. *)
Definition w12 : world :=
  refill [Some page3; Some []; Some []; Some []; Some []] []
    [Written; Written; Written; Written; Written] w1.

(** The world before a first cycle whose write fails after the file was
    opened. *)
Definition w13 : world :=
  {| files := ∅; gets := [Some page1]; posts := []; writes := [DumpRaised];
     log := [] |}.

End Sample.

(** * Properties *)

(** ** Strings *)

Section StrFacts.

Implicit Types (p s t sep : str).

Lemma leb_refl s : leb s s = true.
Proof.
  induction s as [|c s IH]; simpl; [done|].
  rewrite N.eqb_refl, IH. by rewrite orb_true_r.
Qed.

Lemma leb_total a b : leb a b = true ∨ leb b a = true.
Proof.
  revert b. induction a as [|x a IH]; intros [|y b]; simpl; auto.
  destruct (N.ltb_spec x y) as [Hxy|Hxy]; [by left|].
  destruct (N.ltb_spec y x) as [Hyx|Hyx]; [by right|].
  assert (x = y) as -> by lia. rewrite N.eqb_refl. simpl. apply IH.
Qed.

Lemma leb_antisym a b : leb a b = true → leb b a = true → a = b.
Proof.
  revert b. induction a as [|x a IH]; intros [|y b]; simpl; try done.
  intros H1 H2.
  destruct (N.ltb_spec x y) as [Hxy|Hxy], (N.ltb_spec y x) as [Hyx|Hyx];
    try lia; simpl in *.
  - destruct (N.eqb_spec y x); [lia|done].
  - destruct (N.eqb_spec x y); [lia|done].
  - destruct (N.eqb_spec x y) as [->|]; [|done].
    rewrite N.eqb_refl in H2. f_equal. by apply IH.
Qed.

Lemma leb_trans a b c : leb a b = true → leb b c = true → leb a c = true.
Proof.
  revert b c. induction a as [|x a IH]; intros [|y b] [|z c]; simpl; try done.
  intros H1 H2.
  destruct (N.ltb_spec x y) as [Hxy|Hxy]; simpl in H1.
  - destruct (N.ltb_spec y z) as [Hyz|Hyz]; simpl in H2.
    + destruct (N.ltb_spec x z); [done|lia].
    + destruct (N.eqb_spec y z) as [->|]; [|done].
      destruct (N.ltb_spec x z); [done|lia].
  - destruct (N.eqb_spec x y) as [->|]; [|done].
    destruct (N.ltb_spec y z) as [Hyz|Hyz]; simpl in *; [done|].
    destruct (N.eqb_spec y z) as [->|]; [|done]. eauto.
Qed.

Lemma le_total : Total Py.le.
Proof. intros a b. apply leb_total. Qed.

Lemma le_trans : Transitive Py.le.
Proof. intros a b c. apply leb_trans. Qed.

Lemma le_antisymm : AntiSymm (=) Py.le.
Proof. intros a b. apply leb_antisym. Qed.

Lemma startswith_spec p s : startswith p s = true ↔ ∃ t, s = p ++ t.
Proof.
  revert s. induction p as [|x p IH]; intros s; simpl.
  - split; eauto.
  - destruct s as [|y s].
    + split; [done|]. by intros [t ?].
    + rewrite andb_true_iff, IH, N.eqb_eq. split.
      * intros [-> [t ->]]. eauto.
      * intros [t [= -> ->]]. eauto.
Qed.

Lemma startswith_length p s : startswith p s = true → length p ≤ length s.
Proof.
  intros [t ->]%startswith_spec. rewrite length_app. lia.
Qed.

Lemma startswith_app p s x :
  length p ≤ length s → startswith p (s ++ x) = startswith p s.
Proof.
  revert s. induction p as [|c p IH]; intros [|d s]; simpl; try done; [lia|].
  intros Hl. rewrite IH; [done|lia].
Qed.

(** [p in s] holds exactly when [s] is [p] with something before and after. *)
Lemma contains_spec p s :
  contains p s = true ↔ ∃ l1 l2, s = l1 ++ p ++ l2.
Proof.
  induction s as [|c s IH]; simpl.
  - rewrite orb_false_r, startswith_spec. split.
    + intros [t Ht]. by exists [], t.
    + intros (l1 & l2 & H). symmetry in H.
      apply app_eq_nil in H as [-> [-> ->]%app_eq_nil]. by exists [].
  - rewrite orb_true_iff, IH, startswith_spec. split.
    + intros [[t Ht]|(l1 & l2 & ->)]; [by exists [], t|].
      by exists (c :: l1), l2.
    + intros ([|d l1] & l2 & H); simpl in H; [left; eauto|].
      injection H as -> ->. right. eauto.
Qed.




Lemma length_join sep (parts : list str) :
  length (join sep parts) = total parts + length sep * (length parts - 1).
Proof.
  unfold total. induction parts as [|q parts IH]; simpl; [lia|].
  destruct parts as [|r parts]; [simpl; lia|].
  rewrite !length_app, IH. simpl. lia.
Qed.

(** [split_at_first] finds an occurrence, and the leftmost one. *)
Lemma split_at_first_Some sep s h t :
  split_at_first sep s = Some (h, t) → s = h ++ sep ++ t.
Proof.
  revert h t. induction s as [|c s IH]; intros h t; simpl.
  - destruct sep as [|d sep]; simpl; [|done]. by intros [= <- <-].
  - destruct (startswith sep (c :: s)) eqn:Hs.
    + intros [= <- <-]. apply startswith_spec in Hs as [t Ht].
      rewrite Ht. by rewrite drop_app_length.
    + destruct (split_at_first sep s) as [[h' t']|]; [|done].
      intros [= <- <-]. by rewrite (IH h' t').
Qed.

Lemma split_at_first_leftmost sep s h t l1 l2 :
  split_at_first sep s = Some (h, t) → s = l1 ++ sep ++ l2 →
  length h ≤ length l1.
Proof.
  revert h t l1. induction s as [|c s IH]; intros h t l1; simpl.
  - destruct (startswith sep []); [|done]. intros [= <- <-] _. simpl. lia.
  - destruct (startswith sep (c :: s)) eqn:Hs.
    + intros [= <- <-] _. simpl. lia.
    + destruct (split_at_first sep s) as [[h' t']|] eqn:Hsp; [|done].
      intros [= <- <-] Heq. destruct l1 as [|d l1]; simpl in Heq.
      * assert (startswith sep (c :: s) = true) as Hs'
          by (apply startswith_spec; eauto). congruence.
      * injection Heq as -> ->. simpl. specialize (IH _ _ _ eq_refl eq_refl). lia.
Qed.

Lemma split_at_first_None sep s :
  split_at_first sep s = None ↔ contains sep s = false.
Proof.
  induction s as [|c s IH]; simpl.
  - destruct (startswith sep []); simpl; split; done.
  - destruct (startswith sep (c :: s)); simpl; [split; done|].
    rewrite <-IH. destruct (split_at_first sep s) as [[??]|]; split; done.
Qed.

Lemma split_at_first_app sep s x h t :
  split_at_first sep s = Some (h, t) →
  split_at_first sep (s ++ x) = Some (h, t ++ x).
Proof.
  revert h t. induction s as [|c s IH]; intros h t; simpl.
  - destruct sep as [|d sep]; simpl; [|done].
    intros [= <- <-]. by destruct x.
  - destruct (startswith sep (c :: s)) eqn:Hs.
    + intros [= <- <-].
      pose proof (startswith_length _ _ Hs) as Hl.
      change (c :: s ++ x) with ((c :: s) ++ x).
      rewrite startswith_app, Hs by done.
      by rewrite drop_app_le.
    + destruct (split_at_first sep s) as [[h' t']|] eqn:Hsp; [|done].
      intros [= <- <-].
      assert (length sep ≤ length (c :: s)) as Hl.
      { apply split_at_first_Some in Hsp as ->.
        simpl. rewrite !length_app. lia. }
      change (c :: s ++ x) with ((c :: s) ++ x).
      rewrite startswith_app, Hs by done.
      simpl. by rewrite (IH _ _ eq_refl).
Qed.

End StrFacts.

(** ** Effects *)

Section IoFacts.

Context (rt : runtime) (cfg : settings).

Lemma exec_bind {A B} (m : io A) (f : A → io B) w :
  exec (m ≫= f) w = exec (f (result m w)) (exec m w).
Proof. reflexivity. Qed.

Lemma result_bind {A B} (m : io A) (f : A → io B) w :
  result (m ≫= f) w = result (f (result m w)) (exec m w).
Proof. reflexivity. Qed.

#[export] Instance quiet_preorder P : PreOrder (quiet P).
Proof.
  split.
  - intros w. repeat split. exists []. by rewrite app_nil_r.
  - intros w1 w2 w3 (Hf1 & Hw1 & t1 & Hl1 & Ht1) (Hf2 & Hw2 & t2 & Hl2 & Ht2).
    split; [congruence|]. split; [congruence|].
    exists (t1 ++ t2). rewrite Hl2, Hl1, <-app_assoc. split; [done|].
    by rewrite forallb_app, Ht1, Ht2.
Qed.

Lemma quiet_weaken (P Q : event → bool) w w' :
  (∀ e, P e = true → Q e = true) → quiet P w w' → quiet Q w w'.
Proof.
  intros HPQ (Hf & Hw & t & Hl & Ht). repeat split; [done..|].
  exists t. split; [done|]. rewrite forallb_forall in *. auto.
Qed.

Lemma within_ret {A} (R : relation world) `{!Reflexive R} (a : A) :
  within R (mret a).
Proof. intros w. apply reflexivity. Qed.

Lemma within_bind {A B} (R : relation world) `{!Transitive R}
    (m : io A) (f : A → io B) :
  within R m → (∀ a, within R (f a)) → within R (m ≫= f).
Proof.
  intros Hm Hf w. rewrite exec_bind. etrans; [apply Hm|apply Hf].
Qed.

Lemma within_emit P e : P e = true → within (quiet P) (emit e).
Proof.
  intros He w. repeat split. exists [e]. split; [done|]. simpl. by rewrite He.
Qed.

Lemma within_http_get P url :
  (∀ ok, P (Get url ok) = true) → within (quiet P) (http_get url).
Proof.
  intros He w. repeat split. eexists [_]. split; [done|]. simpl. by rewrite He.
Qed.

Lemma within_http_post P : within (quiet P) http_post.
Proof. intros w. repeat split. exists []. by rewrite app_nil_r. Qed.

Lemma within_fetch_attempts url retries delay todo attempt :
  within (quiet plain) (fetch_attempts url retries delay todo attempt).
Proof.
  revert attempt. induction todo as [|todo IH]; intros attempt; simpl.
  - by apply within_ret, _.
  - apply within_bind; [apply _|by apply within_http_get|].
    intros [body|]; [by apply within_ret, _|].
    apply within_bind; [apply _|by apply within_emit|]. intros _.
    apply within_bind; [apply _| |done].
    destruct (attempt <? retries); [by apply within_emit|by apply within_ret, _].
Qed.

Lemma within_send_telegram_message html_message :
  within (quiet notice) (send_telegram_message cfg html_message).
Proof.
  unfold send_telegram_message.
  destruct (_ || _).
  - repeat (apply within_bind; [apply _|by apply within_emit|]; intros _).
    by apply within_ret, _.
  - apply within_bind; [apply _|apply within_http_post|].
    intros [status_code|]; [destruct (status_code =? 200)|];
      repeat (apply within_bind; [apply _|by apply within_emit|]; intros _);
      by apply within_ret, _.
Qed.

Lemma within_chunk_loop site_key todo batch total_len :
  within (quiet notice) (chunk_loop rt cfg site_key todo batch total_len).
Proof.
  revert batch total_len. induction todo as [|itm todo IH]; intros batch total_len; simpl.
  - destruct batch; [by apply within_ret, _|].
    apply within_bind; [apply _|apply within_send_telegram_message|]. intros _.
    by apply within_ret, _.
  - destruct (3500 <? _); [|done].
    apply within_bind; [apply _|apply within_send_telegram_message|]. by intros _.
Qed.

Lemma observe_plain t :
  forallb plain t = true → alerts t = [] ∧ dumps t = [] ∧ cycles t = [].
Proof.
  induction t as [|e t IH]; [done|]. simpl. intros [He Ht]%andb_true_iff.
  destruct (IH Ht) as (Ha & Hd & Hc).
  unfold alerts, dumps, cycles in *. simpl. rewrite Ha, Hd, Hc.
  by destruct e as [| | | |[]].
Qed.

Lemma observe_notice t :
  forallb notice t = true → dumps t = [] ∧ cycles t = [].
Proof.
  induction t as [|e t IH]; [done|]. simpl. intros [He Ht]%andb_true_iff.
  destruct (IH Ht) as (Hd & Hc).
  unfold dumps, cycles in *. simpl. rewrite Hd, Hc.
  by destruct e as [| | | |[]].
Qed.

Lemma alerts_app l1 l2 : alerts (l1 ++ l2) = alerts l1 ++ alerts l2.
Proof. apply omap_app. Qed.
Lemma dumps_app l1 l2 : dumps (l1 ++ l2) = dumps l1 ++ dumps l2.
Proof. apply omap_app. Qed.
Lemma cycles_app l1 l2 : cycles (l1 ++ l2) = cycles l1 ++ cycles l2.
Proof. apply omap_app. Qed.

(** *** The fetch *)

Lemma fetch_attempts_unfold url retries delay todo attempt w :
  fetch_attempts url retries delay (S todo) attempt w =
  match gets w with
  | Some body :: g =>
      (Some body, set_log (log w ++ [Get url true]) (set_gets g w))
  | _ =>
      fetch_attempts url retries delay todo (S attempt)
        (set_log (log w ++ failed_attempts url retries delay 1 attempt)
           (set_gets (tail (gets w)) w))
  end.
Proof.
  destruct w as [f g p b l]. simpl.
  unfold mbind, io_bind, http_get, print, sleep, emit, set_log, set_gets, mret, io_ret.
  destruct g as [|[body|] g]; simpl; [|done|];
    destruct (attempt <? retries); simpl; rewrite <-?app_assoc; done.
Qed.

Lemma result_fetch_attempts url retries delay todo attempt w :
  result (fetch_attempts url retries delay todo attempt) w =
  answered todo (gets w).
Proof.
  revert attempt w. induction todo as [|todo IH]; intros attempt w; [done|].
  unfold result in *. rewrite fetch_attempts_unfold.
  destruct (gets w) as [|[body|] g]; simpl; [|done|]; rewrite IH; simpl; [|done].
  by destruct todo.
Qed.

Lemma failed_attempts_app url retries delay k1 k2 attempt :
  failed_attempts url retries delay (k1 + k2) attempt =
  failed_attempts url retries delay k1 attempt ++
  failed_attempts url retries delay k2 (k1 + attempt).
Proof.
  revert attempt. induction k1 as [|k1 IH]; intros attempt; [done|].
  simpl. rewrite IH. destruct (attempt <? retries); simpl;
    by replace (k1 + S attempt) with (S (k1 + attempt)) by lia.
Qed.

(** When no attempt is answered, the log shows all the attempts. *)
Lemma log_fetch_attempts_failed url retries delay todo attempt w :
  answered todo (gets w) = None →
  log (exec (fetch_attempts url retries delay todo attempt) w) =
  log w ++ failed_attempts url retries delay todo attempt.
Proof.
  revert attempt w. induction todo as [|todo IH]; intros attempt w Hno.
  - simpl. by rewrite app_nil_r.
  - unfold exec in *. rewrite fetch_attempts_unfold.
    change (S todo) with (1 + todo). rewrite failed_attempts_app.
    simpl in Hno. destruct (gets w) as [|[body|] g] eqn:Hg; [|done|].
    + rewrite IH; [|by destruct todo]. destruct w; simpl. by rewrite <-app_assoc.
    + rewrite IH; [|done]. destruct w; simpl. by rewrite <-app_assoc.
Qed.

(** No attempt is answered exactly when none of the first [todo] answers is
    a page. *)
Lemma answered_None todo tape :
  answered todo tape = None ↔ ∀ i body, i < todo → tape !! i ≠ Some (Some body).
Proof.
  revert tape. induction todo as [|todo IH]; intros tape; simpl.
  - split; [intros _ i body ?; lia|done].
  - destruct tape as [|[body|] tape].
    + split; [by intros _ i body _|done].
    + split; [done|]. intros H. by destruct (H 0 body); [lia|].
    + rewrite IH. split.
      * intros H [|i] body' Hi; [done|]. simpl. apply H. lia.
      * intros H i body' Hi. apply (H (S i) body'). lia.
Qed.

End IoFacts.

Section Dispatch.

Context (rt : runtime) (cfg : settings).

Ltac alerts_done := rewrite !alerts_app; unfold alerts; simpl; rewrite ?app_nil_r; done.

(** *** Telegram and the dispatcher *)

Lemma send_telegram_message_run html_message w :
  let w' := exec (send_telegram_message cfg html_message) w in
  quiet notice w w' ∧
  alerts (log w') =
    alerts (log w) ++ [(html_message, result (send_telegram_message cfg html_message) w)].
Proof.
  split; [apply within_send_telegram_message|].
  unfold send_telegram_message, exec, result.
  destruct w as [f g p b l].
  destruct (_ || _); [simpl; alerts_done|].
  unfold mbind, io_bind, http_post. simpl.
  destruct p as [|[status_code|] p]; simpl; [alerts_done| |alerts_done].
  destruct (status_code =? 200); simpl; alerts_done.
Qed.

Lemma exec_ret {A} (a : A) w : exec (mret a) w = w.
Proof. by destruct w. Qed.

Lemma total_snoc batch part : total (batch ++ [part]) = total batch + length part.
Proof. unfold total. rewrite sum_list_with_app. simpl. lia. Qed.

Lemma chunk_loop_run site_key todo batch w :
  let w' := exec (chunk_loop rt cfg site_key todo batch (total batch)) w in
  quiet notice w w' ∧
  (alerts (log w')).*1 =
    (alerts (log w)).*1 ++
    (message rt site_key <$> flushed (render <$> todo) batch).
Proof.
  split; [apply within_chunk_loop|].
  revert batch w. induction todo as [|itm todo IH]; intros batch w.
  - simpl. destruct batch as [|part batch]; [by rewrite app_nil_r|].
    rewrite exec_bind, exec_ret.
    destruct (send_telegram_message_run (message rt site_key (part :: batch)) w) as [_ ->].
    by rewrite fmap_app.
  - simpl. destruct (3500 <? total batch + length (render itm)) eqn:Hbig.
    + rewrite exec_bind.
      replace (length (render itm)) with (total [render itm])
        by (unfold total; simpl; lia).
      rewrite IH.
      destruct (send_telegram_message_run (message rt site_key batch) w) as [_ ->].
      rewrite fmap_app. simpl. by rewrite <-app_assoc.
    + rewrite <-total_snoc. apply IH.
Qed.

(** The batches hold the fragments, in order. *)
Lemma concat_flushed parts batch : concat (flushed parts batch) = batch ++ parts.
Proof.
  revert batch. induction parts as [|part parts IH]; intros batch; simpl.
  - destruct batch; simpl; by rewrite ?app_nil_r.
  - destruct (3500 <? _); simpl; rewrite IH; [done|by rewrite <-app_assoc].
Qed.

(** *** The store *)

Lemma result_load_seen_links site_name w :
  result (load_seen_links site_name) w =
  match files w !! site_name with
  | None => None
  | Some (Json data) => Some (list_to_set data)
  | Some Corrupt => Some ∅
  end.
Proof.
  unfold result, load_seen_links. by destruct (files w !! site_name) as [[|data]|].
Qed.

Lemma within_load_seen_links site_name :
  within (quiet plain) (load_seen_links site_name).
Proof.
  intros w. unfold exec, load_seen_links.
  destruct (files w !! site_name) as [[|data]|]; simpl; [|reflexivity..].
  by apply within_emit.
Qed.

Lemma gets_load_seen_links site_name w :
  gets (exec (load_seen_links site_name) w) = gets w.
Proof.
  unfold exec, load_seen_links. by destruct (files w !! site_name) as [[|data]|].
Qed.

Lemma save_seen_links_run site_name links_set w :
  let w' := exec (save_seen_links site_name links_set) w in
  let data := elements links_set in
  files w' = saved site_name data w ∧
  log w' = log w ++ save_log site_name data (write_ok w).
Proof.
  unfold exec, save_seen_links, saved, next_write, write_ok, save_log.
  destruct w as [f g p b l]. simpl. by destruct b as [|[] b].
Qed.

Lemma saved_ext site_name data w w' :
  files w' = files w → writes w' = writes w →
  saved site_name data w' = saved site_name data w.
Proof. unfold saved, next_write. by intros -> ->. Qed.


Lemma saved_other site_name data w k :
  k ≠ site_name → saved site_name data w !! k = files w !! k.
Proof.
  intros Hne. unfold saved.
  destruct (next_write w); [|done|]; by rewrite lookup_insert_ne.
Qed.

(** After a write the site loads what was written, what it loaded before, or
    the empty set. *)
Lemma saved_lookup site_name data w :
  saved site_name data w !! site_name =
  match next_write w with
  | Written => Some (Json data)
  | OpenRaised => files w !! site_name
  | DumpRaised => Some Corrupt
  end.
Proof. unfold saved. destruct (next_write w); [|done|]; by rewrite lookup_insert_eq. Qed.


End Dispatch.

(** ** The cycle of one site *)

Section Cycle.

Context (rt : runtime) (cfg : settings).

(** What one cycle does, by the answer to the fetch and the stored state:
    [t] is what the cycle logs apart from notifications and snapshot writes,
    [ts] is the log of the dispatcher. *)
Lemma check_site_run site_key site w :
  let w' := exec (check_site rt cfg site_key site) w in
  ∃ t, forallb plain t = true ∧
  match answered 3 (gets w) with
  | None =>
      files w' = files w ∧
      log w' = log w ++ Say (Checking site_key) :: t
  | Some anchors =>
      let current := extract rt cfg site anchors in
      match result (load_seen_links site_key) w with
      | None =>
          files w' = saved site_key (elements current) w ∧
          log w' = log w ++ Say (Checking site_key) :: t ++
                   save_log site_key (elements current) (write_ok w) ++
                   [Say (Initialized site_key)]
      | Some last_links =>
          let new_items := current ∖ last_links in
          if decide (new_items ≠ ∅)
          then ∃ ts,
            forallb notice ts = true ∧
            (alerts ts).*1 =
              (message rt site_key <$> flushed (render <$> sorted new_items) []) ∧
            files w' = saved site_key (elements (last_links ∪ new_items)) w ∧
            log w' = log w ++ Say (Checking site_key) :: t ++ ts ++
                     save_log site_key (elements (last_links ∪ new_items)) (write_ok w)
          else
            files w' = files w ∧
            log w' = log w ++ Say (Checking site_key) :: t
      end
  end.
Proof.
  intros w'. subst w'. unfold check_site.
  rewrite exec_bind.
  set (w1 := exec (print (Checking site_key)) w).
  assert (files w1 = files w ∧ writes w1 = writes w ∧ gets w1 = gets w ∧
          log w1 = log w ++ [Say (Checking site_key)]) as (Hf1 & Hw1 & Hg1 & Hl1)
    by (by destruct w).
  rewrite exec_bind.
  set (w2 := exec (load_seen_links site_key) w1).
  assert (result (load_seen_links site_key) w1 = result (load_seen_links site_key) w) as ->
    by (by rewrite !result_load_seen_links, Hf1).
  destruct (within_load_seen_links site_key w1) as (Hf2 & Hw2 & t2 & Hl2 & Ht2).
  fold w2 in Hf2, Hw2, Hl2.
  assert (gets w2 = gets w) as Hg2 by (unfold w2; by rewrite gets_load_seen_links).
  rewrite exec_bind. unfold fetch_with_retry.
  rewrite result_fetch_attempts, Hg2.
  set (w3 := exec (fetch_attempts (url site) 3 5 3 1) w2).
  destruct (within_fetch_attempts (url site) 3 5 3 1 w2) as (Hf3 & Hw3 & t3 & Hl3 & Ht3).
  fold w3 in Hf3, Hw3, Hl3.
  assert (write_ok w3 = write_ok w) as Hok
    by (unfold write_ok; by rewrite Hw3, Hw2, Hw1).
  assert (∀ k data, saved k data w3 = saved k data w) as Hsv.
  { intros k data. apply saved_ext; [by rewrite Hf3, Hf2|by rewrite Hw3, Hw2]. }
  destruct (answered 3 (gets w)) as [anchors|].
  - simpl. destruct (result (load_seen_links site_key) w) as [last_links|].
    + destruct (decide _) as [Hnew|Hnew].
      * rewrite !exec_bind.
        set (w4 := exec (print _) w3).
        set (new_items := extract rt cfg site anchors ∖ last_links) in *.
        destruct (chunk_loop_run rt cfg site_key (sorted new_items) [] w4)
          as [(Hf5 & Hw5 & ts & Hl5 & Hts) Ha5].
        change (chunk_loop rt cfg site_key (sorted new_items) [] (total []))
          with (send_in_chunks rt cfg site_key new_items) in *.
        set (w5 := exec (send_in_chunks rt cfg site_key new_items) w4) in *.
        destruct (save_seen_links_run site_key (last_links ∪ new_items) w5) as [Hf6 Hl6].
        assert (files w4 = files w3 ∧ writes w4 = writes w3 ∧
                log w4 = log w3 ++ [Say (NewUpdates (size new_items) site_key)])
          as (Hf4 & Hw4 & Hl4) by (by destruct w3).
        assert (write_ok w5 = write_ok w) as Hok5
          by (unfold write_ok in *; by rewrite Hw5, Hw4).
        assert (∀ k data, saved k data w5 = saved k data w) as Hsv5.
        { intros k data. rewrite <-Hsv. apply saved_ext; [by rewrite Hf5|by rewrite Hw5]. }
        exists (t2 ++ t3 ++ [Say (NewUpdates (size new_items) site_key)]).
        split; [by rewrite !forallb_app, Ht2, Ht3|].
        exists ts. split; [done|]. split.
        { rewrite Hl5, alerts_app, fmap_app in Ha5. by apply app_inv_head in Ha5. }
        rewrite Hf6, Hl6, Hok5, Hsv5. split; [done|].
        rewrite Hl5, Hl4, Hl3, Hl2, Hl1. by rewrite <-!app_assoc.
      * exists (t2 ++ t3 ++ [Say (NoNewUpdates site_key)]).
        split; [by rewrite !forallb_app, Ht2, Ht3|].
        assert (∀ l w0, files (exec (print l) w0) = files w0 ∧
                        log (exec (print l) w0) = log w0 ++ [Say l]) as Hp
          by (by intros ? []).
        destruct (Hp (NoNewUpdates site_key) w3) as [-> ->].
        rewrite Hf3, Hf2, Hf1. split; [done|].
        rewrite Hl3, Hl2, Hl1. by rewrite <-!app_assoc.
    + rewrite exec_bind.
      destruct (save_seen_links_run site_key (extract rt cfg site anchors) w3) as [Hf4 Hl4].
      set (w4 := exec (save_seen_links _ _) w3) in *.
      exists (t2 ++ t3). split; [by rewrite !forallb_app, Ht2, Ht3|].
      assert (files (exec (print (Initialized site_key)) w4) = files w4 ∧
              log (exec (print (Initialized site_key)) w4) = log w4 ++ [Say (Initialized site_key)])
        as [-> ->] by (by destruct w4).
      rewrite Hf4, Hl4, Hok, Hsv. split; [done|].
      rewrite Hl3, Hl2, Hl1. by rewrite <-!app_assoc.
  - cbv beta iota. exists (t2 ++ t3 ++ [Say (FetchFailed site_key)]).
    split; [by rewrite !forallb_app, Ht2, Ht3|].
    assert (files (exec (print (FetchFailed site_key)) w3) = files w3 ∧
            log (exec (print (FetchFailed site_key)) w3) = log w3 ++ [Say (FetchFailed site_key)])
      as [-> ->] by (by destruct w3).
    rewrite Hf3, Hf2, Hf1. split; [done|].
    rewrite Hl3, Hl2, Hl1. by rewrite <-!app_assoc.
Qed.

(** *** A cycle that may raise *)

Lemma posts_fetch_attempts url retries delay todo attempt w :
  posts (exec (fetch_attempts url retries delay todo attempt) w) = posts w.
Proof.
  revert w attempt. induction todo as [|todo IH]; intros w attempt; [done|].
  unfold exec in *. rewrite fetch_attempts_unfold.
  destruct (gets w) as [|[body|] g]; [|done|]; by rewrite IH.
Qed.

Lemma result_check_site_or_raise site_key site w :
  result (check_site_or_raise rt cfg site_key site) w =
  match answered 3 (gets w) with
  | Some anchors => if extract_raises rt cfg site anchors then Raised else Returned
  | None => Returned
  end.
Proof.
  unfold check_site_or_raise.
  rewrite result_bind.
  set (w1 := exec (print (Checking site_key)) w).
  assert (gets w1 = gets w) as Hg1 by (by destruct w).
  rewrite result_bind.
  set (w2 := exec (load_seen_links site_key) w1).
  assert (gets w2 = gets w) as Hg2 by (unfold w2; by rewrite gets_load_seen_links).
  rewrite result_bind. unfold fetch_with_retry.
  rewrite result_fetch_attempts, Hg2.
  destruct (answered 3 (gets w)) as [anchors|]; [|done].
  destruct (extract_raises rt cfg site anchors); [done|].
  destruct (result (load_seen_links site_key) w1) as [last_links|]; [|done].
  cbv zeta. by destruct (decide _).
Qed.

(** A cycle that returns is the cycle of [check_site]. One that raises has
    obtained a page with a retained link that [urljoin] rejects, and has done
    nothing but load the snapshot and fetch the page. *)
Lemma check_site_or_raise_run site_key site w :
  let w' := exec (check_site_or_raise rt cfg site_key site) w in
  match result (check_site_or_raise rt cfg site_key site) w with
  | Returned => w' = exec (check_site rt cfg site_key site) w
  | Raised =>
      (∃ anchors, answered 3 (gets w) = Some anchors ∧
                  extract_raises rt cfg site anchors = true) ∧
      files w' = files w ∧ writes w' = writes w ∧ posts w' = posts w ∧
      ∃ t, forallb plain t = true ∧
           log w' = log w ++ Say (Checking site_key) :: t
  end.
Proof.
  intros w'. subst w'. rewrite result_check_site_or_raise.
  unfold check_site_or_raise, check_site.
  rewrite !(exec_bind (print (Checking site_key))).
  set (w1 := exec (print (Checking site_key)) w).
  assert (files w1 = files w ∧ writes w1 = writes w ∧ gets w1 = gets w ∧
          posts w1 = posts w ∧
          log w1 = log w ++ [Say (Checking site_key)]) as (Hf1 & Hw1 & Hg1 & Hp1 & Hl1)
    by (by destruct w).
  rewrite !(exec_bind (load_seen_links site_key)).
  set (w2 := exec (load_seen_links site_key) w1).
  destruct (within_load_seen_links site_key w1) as (Hf2 & Hw2 & t2 & Hl2 & Ht2).
  fold w2 in Hf2, Hw2, Hl2.
  assert (gets w2 = gets w) as Hg2 by (unfold w2; by rewrite gets_load_seen_links).
  assert (posts w2 = posts w1) as Hp2.
  { unfold w2, exec, load_seen_links.
    destruct (files w1 !! site_key) as [[|data]|]; [|done..]. by destruct w1. }
  rewrite !(exec_bind (fetch_with_retry _ _ _)). unfold fetch_with_retry.
  rewrite result_fetch_attempts, Hg2.
  set (w3 := exec (fetch_attempts (url site) 3 5 3 1) w2).
  destruct (within_fetch_attempts (url site) 3 5 3 1 w2) as (Hf3 & Hw3 & t3 & Hl3 & Ht3).
  fold w3 in Hf3, Hw3, Hl3.
  destruct (answered 3 (gets w)) as [anchors|]; [|done].
  destruct (extract_raises rt cfg site anchors) eqn:Hraise.
  - split; [by exists anchors|]. rewrite exec_ret.
    split; [by rewrite Hf3, Hf2|]. split; [by rewrite Hw3, Hw2|].
    split.
    { unfold w3. by rewrite posts_fetch_attempts, Hp2, Hp1. }
    exists (t2 ++ t3). split; [by rewrite forallb_app, Ht2, Ht3|].
    rewrite Hl3, Hl2, Hl1. by rewrite <-!app_assoc.
  - destruct (result (load_seen_links site_key) w1) as [last_links|]; [|done].
    cbv zeta. by destruct (decide _).
Qed.

End Cycle.

Section CycleClaims.

Context (rt : runtime) (cfg : settings).

Lemma result_fetch_with_retry url retries delay w :
  result (fetch_with_retry url retries delay) w = answered retries (gets w).
Proof. apply result_fetch_attempts. Qed.

Lemma observe_save_log site_name data ok :
  alerts (save_log site_name data ok) = [] ∧
  dumps (save_log site_name data ok) = [(site_name, data, ok)] ∧
  cycles (save_log site_name data ok) = [].
Proof. by destruct ok. Qed.



Lemma diff_next_covers current previous : current ⊆ (diff current previous).2.
Proof.
  destruct previous as [previous|]; simpl; [|done].
  intros x Hx. apply elem_of_union.
  destruct (decide (x ∈ previous)); [by left|right]. by apply elem_of_difference.
Qed.

(** C3. Idempotence: when the stored state is the next state that the diff
    engine produced for [current], a cycle that extracts [current] again
    finds nothing new: it sends no notification and writes no snapshot. *)
Theorem rerun_sends_nothing site_key site w anchors current previous :
  result (load_seen_links site_key) w = Some (diff current previous).2 →
  result (fetch_with_retry (url site) 3 5) w = Some anchors →
  extract rt cfg site anchors = current →
  let w' := exec (check_site rt cfg site_key site) w in
  (diff current (Some (diff current previous).2)).1 = ∅ ∧
  alerts (log w') = alerts (log w) ∧
  dumps (log w') = dumps (log w) ∧
  files w' = files w.
Proof.
  intros Hload Hfetch Hcur w'.
  rewrite result_fetch_with_retry in Hfetch.
  pose proof (diff_next_covers current previous) as Hsub.
  assert (current ∖ (diff current previous).2 = ∅) as Hnone
    by (by apply subseteq_empty_difference_L).
  destruct (check_site_run rt cfg site_key site w) as (t & Ht & Hrun).
  rewrite Hfetch, Hload, Hcur in Hrun. simpl in Hrun.
  destruct (decide _) as [Hnew|_]; [done|].
  destruct Hrun as [Hf Hl]. fold w' in Hf, Hl.
  destruct (observe_plain t Ht) as (Hta & Htd & _).
  split; [done|]. rewrite Hl.
  change (Say (Checking site_key) :: t) with ([Say (Checking site_key)] ++ t).
  rewrite !alerts_app, !dumps_app, Hta, Htd. simpl. by rewrite !app_nil_r.
Qed.

(** C4. Retry exhaustion: when none of the three attempts is answered with a
    page, the fetch returns nothing after three GETs with a wait after the
    first two only, and the cycle ends there: no snapshot is written, no
    notification is sent and the files are what they were. *)
Theorem retry_exhaustion site_key site w :
  (∀ i body, i < 3 → gets w !! i ≠ Some (Some body)) →
  let w' := exec (check_site rt cfg site_key site) w in
  result (fetch_with_retry (url site) 3 5) w = None ∧
  log (exec (fetch_with_retry (url site) 3 5) w) =
    log w ++ [Get (url site) false; Say (AttemptFailed 1 (url site)); Sleep 5;
              Get (url site) false; Say (AttemptFailed 2 (url site)); Sleep 5;
              Get (url site) false; Say (AttemptFailed 3 (url site))] ∧
  files w' = files w ∧
  dumps (log w') = dumps (log w) ∧
  alerts (log w') = alerts (log w).
Proof.
  intros Hfail%answered_None w'.
  split; [by rewrite result_fetch_with_retry|].
  split; [by apply (log_fetch_attempts_failed (url site) 3 5 3 1)|].
  destruct (check_site_run rt cfg site_key site w) as (t & Ht & Hrun).
  rewrite Hfail in Hrun. destruct Hrun as [Hf Hl]. fold w' in Hf, Hl.
  destruct (observe_plain t Ht) as (Hta & Htd & _).
  split; [done|]. rewrite Hl.
  change (Say (Checking site_key) :: t) with ([Say (Checking site_key)] ++ t).
  rewrite !alerts_app, !dumps_app, Hta, Htd. simpl. by rewrite !app_nil_r.
Qed.

(** What holds of a cycle that writes no file and hands no snapshot to the
    store. *)
Lemma seen_set_kept site_key w w' previous :
  result (load_seen_links site_key) w = Some previous →
  files w' = files w → dumps (log w') = dumps (log w) →
  (∃ ds, dumps (log w') = dumps (log w) ++ ds ∧
     Forall (λ '(k, data, _), k = site_key ∧ previous ⊆ list_to_set data) ds) ∧
  (∀ k, k ≠ site_key → files w' !! k = files w !! k) ∧
  (∃ next, result (load_seen_links site_key) w' = Some next ∧
     (previous ⊆ next ∨ next_write w = DumpRaised ∧ next = ∅)).
Proof.
  intros Hload Hf Hl. split; [|split].
  - exists []. by rewrite app_nil_r.
  - intros k _. by rewrite Hf.
  - exists previous. split; [|by left].
    by rewrite result_load_seen_links, Hf, <-result_load_seen_links.
Qed.

(** C9 (as the code has it). On an initialised site, whatever the fetch, the
    notifications and the write come to, every snapshot the cycle hands to the
    store is one of this site and contains the previous state, and the
    snapshots of the other sites are untouched. The stored state after the
    cycle contains the stored state before it, with one exception: when the
    write fails after the file was opened the site loads the empty set. *)
Theorem seen_set_grows site_key site w previous :
  result (load_seen_links site_key) w = Some previous →
  let w' := exec (check_site_or_raise rt cfg site_key site) w in
  (∃ ds, dumps (log w') = dumps (log w) ++ ds ∧
     Forall (λ '(k, data, _), k = site_key ∧ previous ⊆ list_to_set data) ds) ∧
  (∀ k, k ≠ site_key → files w' !! k = files w !! k) ∧
  (∃ next, result (load_seen_links site_key) w' = Some next ∧
     (previous ⊆ next ∨ next_write w = DumpRaised ∧ next = ∅)).
Proof.
  intros Hload w'.
  pose proof (check_site_or_raise_run rt cfg site_key site w) as Hor.
  fold w' in Hor.
  destruct (result (check_site_or_raise rt cfg site_key site) w).
  2:{ destruct Hor as (_ & Hf & _ & _ & t & Ht & Hl).
      destruct (observe_plain t Ht) as (_ & Htd & _).
      apply seen_set_kept; [done..|].
      rewrite Hl. change (Say (Checking site_key) :: t)
        with ([Say (Checking site_key)] ++ t).
      rewrite !dumps_app, Htd. simpl. by rewrite app_nil_r. }
  destruct (check_site_run rt cfg site_key site w) as (t & Ht & Hrun).
  rewrite <-Hor in Hrun. clear Hor.
  destruct (observe_plain t Ht) as (_ & Htd & _).
  assert (∀ l, dumps (Say (Checking site_key) :: t ++ l) = dumps l) as Hd.
  { intros l. change (Say (Checking site_key) :: t ++ l)
      with ([Say (Checking site_key)] ++ t ++ l).
    by rewrite !dumps_app, Htd. }
  rewrite Hload in Hrun.
  destruct (answered 3 (gets w)) as [anchors|].
  - simpl in Hrun. destruct (decide _) as [Hnew|_].
    + destruct Hrun as (ts & Hts & _ & Hf & Hl).
      destruct (observe_notice ts Hts) as [Htsd _].
      set (next := previous ∪ extract rt cfg site anchors ∖ previous) in *.
      destruct (observe_save_log site_key (elements next) (write_ok w)) as (_ & Hsd & _).
      split; [|split].
      * exists [(site_key, elements next, write_ok w)]. split.
        -- by rewrite Hl, dumps_app, Hd, dumps_app, Htsd, Hsd.
        -- constructor; [|done]. rewrite list_to_set_elements_L.
           split; [done|]. apply union_subseteq_l.
      * intros k Hk. rewrite Hf. by apply saved_other.
      * rewrite result_load_seen_links, Hf, saved_lookup.
        destruct (next_write w).
        -- exists next. rewrite list_to_set_elements_L. split; [done|].
           left. apply union_subseteq_l.
        -- rewrite <-result_load_seen_links. exists previous. split; [done|by left].
        -- exists ∅. split; [done|by right].
    + destruct Hrun as [Hf Hl]. apply seen_set_kept; [done..|].
      rewrite Hl, dumps_app. rewrite <-(app_nil_r t), Hd. by rewrite app_nil_r.
  - destruct Hrun as [Hf Hl]. apply seen_set_kept; [done..|].
    rewrite Hl, dumps_app. rewrite <-(app_nil_r t), Hd. by rewrite app_nil_r.
Qed.

End CycleClaims.



Lemma rerun_sends_nothing_witness :
  let current := extract Sample.rt Sample.cfg Sample.mrb Sample.page1 in
  result (load_seen_links (lit "mrb")) Sample.w2 = Some (diff current None).2 ∧
  result (fetch_with_retry (url Sample.mrb) 3 5) Sample.w2 = Some Sample.page1 ∧
  let w' := exec (check_site Sample.rt Sample.cfg (lit "mrb") Sample.mrb) Sample.w2 in
  (diff current (Some (diff current None).2)).1 = ∅ ∧
  alerts (log w') = alerts (log Sample.w2) ∧
  dumps (log w') = dumps (log Sample.w2) ∧
  files w' = files Sample.w2.
Proof.
  intros current.
  assert (result (load_seen_links (lit "mrb")) Sample.w2 = Some (diff current None).2)
    as Hload by (refine (bool_decide_eq_true_1 _ _); vm_compute; reflexivity).
  assert (result (fetch_with_retry (url Sample.mrb) 3 5) Sample.w2 = Some Sample.page1)
    as Hfetch by (vm_compute; reflexivity).
  exact (conj Hload (conj Hfetch
    (rerun_sends_nothing Sample.rt Sample.cfg (lit "mrb") Sample.mrb
       Sample.w2 Sample.page1 current None Hload Hfetch eq_refl))).
Defined.

Lemma retry_exhaustion_witness :
  (∀ i body, i < 3 → gets Sample.w3 !! i ≠ Some (Some body)) ∧
  let w' := exec (check_site Sample.rt Sample.cfg (lit "mrb") Sample.mrb) Sample.w3 in
  result (fetch_with_retry (url Sample.mrb) 3 5) Sample.w3 = None ∧
  log (exec (fetch_with_retry (url Sample.mrb) 3 5) Sample.w3) =
    log Sample.w3 ++
      [Get (url Sample.mrb) false; Say (AttemptFailed 1 (url Sample.mrb)); Sleep 5;
       Get (url Sample.mrb) false; Say (AttemptFailed 2 (url Sample.mrb)); Sleep 5;
       Get (url Sample.mrb) false; Say (AttemptFailed 3 (url Sample.mrb))] ∧
  files w' = files Sample.w3 ∧
  dumps (log w') = dumps (log Sample.w3) ∧
  alerts (log w') = alerts (log Sample.w3).
Proof.
  assert (∀ i body, i < 3 → gets Sample.w3 !! i ≠ Some (Some body)) as Hfail.
  { intros [|[|[|i]]] body Hi; [done..|lia]. }
  exact (conj Hfail
    (retry_exhaustion Sample.rt Sample.cfg (lit "mrb") Sample.mrb Sample.w3 Hfail)).
Defined.

Lemma seen_set_grows_witness :
  let previous := extract Sample.rt Sample.cfg Sample.mrb Sample.page1 in
  result (load_seen_links (lit "mrb")) Sample.w4 = Some previous ∧
  let w' := exec (check_site_or_raise Sample.rt Sample.cfg (lit "mrb") Sample.mrb)
              Sample.w4 in
  (∃ ds, dumps (log w') = dumps (log Sample.w4) ++ ds ∧
     Forall (λ '(k, data, _), k = lit "mrb" ∧ previous ⊆ list_to_set data) ds) ∧
  (∀ k, k ≠ lit "mrb" → files w' !! k = files Sample.w4 !! k) ∧
  (∃ next, result (load_seen_links (lit "mrb")) w' = Some next ∧
     (previous ⊆ next ∨ next_write Sample.w4 = DumpRaised ∧ next = ∅)).
Proof.
  intros previous.
  assert (result (load_seen_links (lit "mrb")) Sample.w4 = Some previous) as Hload
    by (refine (bool_decide_eq_true_1 _ _); vm_compute; reflexivity).
  exact (conj Hload
    (seen_set_grows Sample.rt Sample.cfg (lit "mrb") Sample.mrb Sample.w4
       previous Hload)).
Defined.

(** C9, as stated, fails when the write fails after the file was opened:
    the site has one notice stored, the cycle finds a second one and
    hands both to the store, and afterwards the file is still there but
    unreadable and the site loads the empty set. *)
Lemma monotonic_growth_counterexample :
  let previous := extract Sample.rt Sample.cfg Sample.mrb Sample.page1 in
  let w' := exec (check_site_or_raise Sample.rt Sample.cfg (lit "mrb") Sample.mrb)
              Sample.w10 in
  result (load_seen_links (lit "mrb")) Sample.w10 = Some previous ∧
  size previous = 1 ∧
  files w' !! lit "mrb" = Some Corrupt ∧
  result (load_seen_links (lit "mrb")) w' = Some ∅ ∧
  ¬ (∃ next, result (load_seen_links (lit "mrb")) w' = Some next ∧ previous ⊆ next).
Proof.
  intros previous w'.
  assert (result (load_seen_links (lit "mrb")) w' = Some ∅) as Hafter
    by (vm_compute; reflexivity).
  assert (size previous = 1) as Hsize by (vm_compute; reflexivity).
  split; [refine (bool_decide_eq_true_1 _ _); vm_compute; reflexivity|].
  split; [exact Hsize|].
  split; [vm_compute; reflexivity|].
  split; [exact Hafter|].
  intros (next & Hnext & Hsub). rewrite Hafter in Hnext.
  injection Hnext as <-.
  apply subseteq_size in Hsub. rewrite size_empty, Hsize in Hsub. lia.
Qed.

(** ** The trigger *)

Section Trigger.

Context (rt : runtime) (cfg : settings).

Lemma cycles_check_site site_key site w :
  cycles (log (exec (check_site rt cfg site_key site) w)) =
  cycles (log w) ++ [site_key].
Proof.
  destruct (check_site_run rt cfg site_key site w) as (t & Ht & Hrun).
  destruct (observe_plain t Ht) as (_ & _ & Htc).
  assert (∀ l, cycles (Say (Checking site_key) :: t ++ l) = site_key :: cycles l) as Hc.
  { intros l. change (Say (Checking site_key) :: t ++ l)
      with ([Say (Checking site_key)] ++ t ++ l).
    by rewrite !cycles_app, Htc. }
  assert (∀ w', log w' = log w ++ Say (Checking site_key) :: t →
                cycles (log w') = cycles (log w) ++ [site_key]) as Hsame.
  { intros w' ->. by rewrite cycles_app, <-(app_nil_r t), Hc. }
  destruct (answered 3 (gets w)) as [anchors|]; [|by apply Hsame, Hrun].
  destruct (result (load_seen_links site_key) w) as [last_links|]; simpl in Hrun.
  - destruct (decide _); [|by apply Hsame, Hrun].
    destruct Hrun as (ts & Hts & _ & _ & ->).
    destruct (observe_notice ts Hts) as [_ Htsc].
    rewrite cycles_app, Hc, cycles_app, Htsc.
    by destruct (observe_save_log site_key
      (elements (last_links ∪ extract rt cfg site anchors ∖ last_links)) (write_ok w))
      as (_ & _ & ->).
  - destruct Hrun as [_ ->]. rewrite cycles_app, Hc, cycles_app.
    by destruct (observe_save_log site_key
      (elements (extract rt cfg site anchors)) (write_ok w)) as (_ & _ & ->).
Qed.

(** A pass in which no cycle raises starts the cycle of every site of the
    table, once, in order. *)
Lemma cycles_check_sites sites w :
  cycles (log (exec (check_sites rt cfg sites) w)) = cycles (log w) ++ sites.*1.
Proof.
  revert w. induction sites as [|[k info] sites IH]; intros w; simpl.
  - by rewrite app_nil_r.
  - rewrite exec_bind, IH, cycles_check_site. by rewrite <-app_assoc.
Qed.

Lemma cycles_check_site_or_raise site_key site w :
  cycles (log (exec (check_site_or_raise rt cfg site_key site) w)) =
  cycles (log w) ++ [site_key].
Proof.
  pose proof (check_site_or_raise_run rt cfg site_key site w) as Hor.
  destruct (result (check_site_or_raise rt cfg site_key site) w).
  - simpl in Hor. rewrite Hor. apply cycles_check_site.
  - destruct Hor as (_ & _ & _ & _ & t & Ht & ->).
    destruct (observe_plain t Ht) as (_ & _ & Htc).
    change (Say (Checking site_key) :: t) with ([Say (Checking site_key)] ++ t).
    by rewrite !cycles_app, Htc.
Qed.

(** The cycles of a pass are those of the first [n] sites of the table, in
    order: all of them when the pass returns; when it raises, the cycle of
    the [n]-th site, started in [w0] after those of the sites before it, is
    one that raises. *)
Lemma cycles_check_sites_or_raise sites w :
  ∃ n, n ≤ length sites ∧
    cycles (log (exec (check_sites_or_raise rt cfg sites) w)) =
      cycles (log w) ++ take n sites.*1 ∧
    match result (check_sites_or_raise rt cfg sites) w with
    | Returned => n = length sites
    | Raised =>
        ∃ m k info w0,
          n = S m ∧ sites !! m = Some (k, info) ∧
          cycles (log w0) = cycles (log w) ++ take m sites.*1 ∧
          result (check_site_or_raise rt cfg k info) w0 = Raised
    end.
Proof.
  revert w. induction sites as [|[k info] sites IH]; intros w.
  - exists 0. simpl. by rewrite app_nil_r.
  - cbn [check_sites_or_raise]. rewrite exec_bind, result_bind.
    pose proof (cycles_check_site_or_raise k info w) as Hc.
    destruct (result (check_site_or_raise rt cfg k info) w) eqn:Hhead.
    + destruct (IH (exec (check_site_or_raise rt cfg k info) w))
        as (n & Hn & Hcs & Hr).
      exists (S n). split; [simpl; lia|]. split.
      * rewrite Hcs, Hc. by rewrite <-app_assoc.
      * destruct (result (check_sites_or_raise rt cfg sites) _); [simpl; lia|].
        destruct Hr as (m & k' & info' & w0 & -> & Hm & Hc0 & Hr0).
        exists (S m), k', info', w0. split; [done|]. split; [done|].
        split; [|done]. rewrite Hc0, Hc. by rewrite <-app_assoc.
    + exists 1. split; [simpl; lia|]. split.
      * rewrite exec_ret, Hc. simpl. by rewrite take_0.
      * unfold result at 1. simpl. exists 0, k, info, w.
        split; [done|]. split; [done|]. split; [|done].
        simpl. by rewrite app_nil_r.
Qed.

(** C8 (as the code has it). The handler answers 403 and starts nothing
    exactly when a non-empty secret is set and the token of the request is
    missing or differs from it; in every other case it answers 200 and starts
    the thread [run_once]. The thread runs the cycles of the sites in the
    order of the table: those of all the sites when the pass returns, and
    otherwise those up to the first cycle that raises, after which it prints
    the error and ends. *)
Theorem trigger_authorization token :
  let refused :=
    ∃ secret, FORCE_TOKEN cfg = Some secret ∧ secret ≠ [] ∧ token ≠ Some secret in
  (refused ↔
   force_check rt cfg token =
     ({| body := lit "Unauthorized"; status := 403 |}, None)) ∧
  (¬ refused ↔
   force_check rt cfg token =
     ({| body := lit "Triggered"; status := 200 |}, Some (run_once rt cfg))) ∧
  (∀ w,
     let w' := exec (run_once rt cfg) w in
     ∃ n, n ≤ length (SITES cfg) ∧
       cycles (log w') = cycles (log w) ++ take n (SITES cfg).*1 ∧
       match result (check_sites_or_raise rt cfg (SITES cfg))
               (exec (print ForceCheckTriggered) w) with
       | Returned => n = length (SITES cfg)
       | Raised =>
           last (log w') = Some (Say ForceCheckError) ∧
           ∃ m k info w0,
             n = S m ∧ SITES cfg !! m = Some (k, info) ∧
             cycles (log w0) = cycles (log w) ++ take m (SITES cfg).*1 ∧
             result (check_site_or_raise rt cfg k info) w0 = Raised
       end).
Proof.
  intros refused.
  assert (refused ∨ ¬ refused) as Hdec.
  { unfold refused. destruct (FORCE_TOKEN cfg) as [[|c secret]|].
    - right. by intros (? & [= <-] & ? & _).
    - destruct (decide (token = Some (c :: secret))) as [->|Hne].
      + right. by intros (? & [= <-] & _ & ?).
      + left. by exists (c :: secret).
    - right. by intros (? & ? & _). }
  assert (refused → force_check rt cfg token =
            ({| body := lit "Unauthorized"; status := 403 |}, None)) as Hyes.
  { intros (secret & Hs & Hne & Htok). unfold force_check. rewrite Hs.
    destruct secret as [|c secret]; [done|]. simpl.
    by rewrite bool_decide_eq_false_2. }
  assert (¬ refused → force_check rt cfg token =
            ({| body := lit "Triggered"; status := 200 |}, Some (run_once rt cfg))) as Hno.
  { intros Hnot. unfold force_check.
    destruct (FORCE_TOKEN cfg) as [[|c secret]|] eqn:Hs; [done| |done]. simpl.
    destruct (decide (token = Some (c :: secret))) as [->|Hne].
    - by rewrite bool_decide_eq_true_2.
    - destruct Hnot. by exists (c :: secret). }
  split; [|split].
  - split; [done|]. intros Heq. destruct Hdec as [|Hnot]; [done|].
    rewrite (Hno Hnot) in Heq. discriminate.
  - split; [done|]. intros Heq Hr. rewrite (Hyes Hr) in Heq. discriminate.
  - intros w w'. subst w'. unfold run_once. rewrite exec_bind.
    set (w1 := exec (print ForceCheckTriggered) w).
    assert (cycles (log w1) = cycles (log w)) as Hc1.
    { destruct w as [f g p b l]. simpl. rewrite cycles_app. simpl.
      by rewrite app_nil_r. }
    rewrite exec_bind.
    destruct (cycles_check_sites_or_raise (SITES cfg) w1) as (n & Hn & Hcs & Hr).
    rewrite Hc1 in Hcs.
    exists n. split; [done|].
    destruct (result (check_sites_or_raise rt cfg (SITES cfg)) w1).
    + by rewrite exec_ret.
    + set (w2 := exec (check_sites_or_raise rt cfg (SITES cfg)) w1) in *.
      assert (log (exec (print ForceCheckError) w2) = log w2 ++ [Say ForceCheckError])
        as -> by (by destruct w2).
      rewrite cycles_app, Hcs. simpl. rewrite app_nil_r.
      split; [done|]. split; [by rewrite last_snoc|].
      destruct Hr as (m & k & info & w0 & -> & Hm & Hc0 & Hr0).
      rewrite Hc1 in Hc0. by exists m, k, info, w0.
Qed.

End Trigger.

(** C8, as stated, fails on a page with a link that [urljoin] rejects: the
    request is authorised, and the pass over the five sites ends
    with the cycle of the first, whose page has such a link in a retained
    anchor. *)
Lemma full_pass_counterexample :
  let w' := exec (run_once Sample.rt Sample.cfg) Sample.w11 in
  force_check Sample.rt Sample.cfg (Some (lit "s3cret")) =
    ({| body := lit "Triggered"; status := 200 |},
     Some (run_once Sample.rt Sample.cfg)) ∧
  length (SITES Sample.cfg) = 5 ∧
  cycles (log w') = [lit "mrb"] ∧
  last (log w') = Some (Say ForceCheckError) ∧
  cycles (log w') ≠ cycles (log Sample.w11) ++ (SITES Sample.cfg).*1.
Proof.
  intros w'.
  assert (cycles (log w') = [lit "mrb"]) as Hc by (vm_compute; reflexivity).
  split; [reflexivity|]. split; [reflexivity|]. split; [exact Hc|].
  split; [vm_compute; reflexivity|].
  rewrite Hc. discriminate.
Qed.

(** ** The batch dispatcher *)

Section Batches.

Context (rt : runtime) (cfg : settings).

Implicit Types (parts batch : list str).

(** The two branches of the loop body. *)
Lemma flushed_flush part parts batch :
  3500 < total batch + length part →
  flushed (part :: parts) batch = batch :: flushed parts [part].
Proof.
  intros Hbig%Nat.ltb_lt. change (flushed (part :: parts) batch)
    with (if 3500 <? total batch + length part
          then batch :: flushed parts [part]
          else flushed parts (batch ++ [part])).
  by rewrite Hbig.
Qed.

Lemma flushed_keep part parts batch :
  total batch + length part ≤ 3500 →
  flushed (part :: parts) batch = flushed parts (batch ++ [part]).
Proof.
  intros Hfit%Nat.ltb_ge. change (flushed (part :: parts) batch)
    with (if 3500 <? total batch + length part
          then batch :: flushed parts [part]
          else flushed parts (batch ++ [part])).
  by rewrite Hfit.
Qed.

Lemma flushed_cases part parts batch :
  (3500 < total batch + length part ∧
   flushed (part :: parts) batch = batch :: flushed parts [part]) ∨
  (total batch + length part ≤ 3500 ∧
   flushed (part :: parts) batch = flushed parts (batch ++ [part])).
Proof.
  destruct (Nat.le_gt_cases (total batch + length part) 3500) as [Hfit|Hbig].
  - right. split; [done|by apply flushed_keep].
  - left. split; [done|by apply flushed_flush].
Qed.

Lemma flushed_head parts batch b :
  flushed parts batch !! 0 = Some b → ∃ rest, b = batch ++ rest.
Proof.
  revert batch. induction parts as [|part parts IH]; intros batch.
  - destruct batch; [done|]. intros [= <-]. exists []. by rewrite app_nil_r.
  - destruct (flushed_cases part parts batch) as [[_ ->]|[_ ->]].
    + intros [= <-]. exists []. by rewrite app_nil_r.
    + intros [rest ->]%IH. exists (part :: rest). by rewrite <-app_assoc.
Qed.

(** A batch is flushed before the fragments run out only when the next
    fragment, which opens the next batch, would take it over the limit. *)
Lemma flushed_boundary parts batch i b b' :
  flushed parts batch !! i = Some b → flushed parts batch !! S i = Some b' →
  ∃ part rest, b' = part :: rest ∧ 3500 < total b + length part.
Proof.
  revert batch i. induction parts as [|part parts IH]; intros batch i.
  - by destruct batch.
  - destruct (flushed_cases part parts batch) as [[Hbig ->]|[_ ->]]; [|apply IH].
    destruct i as [|i]; [|apply IH].
    intros [= <-] [rest ->]%flushed_head. by exists part, rest.
Qed.

(** A fragment joins a batch that is not empty only if it fits. *)
Lemma flushed_fits parts batch :
  total batch ≤ 3500 ∨ (∃ part, batch = [part]) →
  Forall (λ b, total b ≤ 3500 ∨ ∃ part, b = [part] ∧ 3500 < length part)
    (flushed parts batch).
Proof.
  assert (∀ b, total b ≤ 3500 ∨ (∃ part, b = [part]) →
               total b ≤ 3500 ∨ ∃ part, b = [part] ∧ 3500 < length part) as Hw.
  { intros b [?|[part ->]]; [by left|].
    destruct (Nat.le_gt_cases (length part) 3500).
    - left. unfold total. simpl. lia.
    - right. exists part. split; [done|lia]. }
  revert batch. induction parts as [|part parts IH]; intros batch Hb.
  - destruct batch; [done|]. constructor; [by apply Hw|done].
  - destruct (flushed_cases part parts batch) as [[_ ->]|[Hfit ->]].
    + constructor; [by apply Hw|]. apply IH. right. eauto.
    + apply IH. left. by rewrite total_snoc.
Qed.

(** The batch flushed after the loop is not empty. *)
Lemma flushed_last parts batch :
  parts ≠ [] ∨ batch ≠ [] →
  ∃ b, last (flushed parts batch) = Some b ∧ b ≠ [].
Proof.
  revert batch. induction parts as [|part parts IH]; intros batch Hne.
  - destruct Hne as [?|?]; [done|]. destruct batch; [done|]. simpl. eauto.
  - destruct (flushed_cases part parts batch) as [[_ ->]|[_ ->]].
    + destruct (IH [part]) as (b & Hb & ?); [by right|].
      exists b. split; [|done].
      destruct (flushed parts [part]); [done|]. by rewrite last_cons, Hb.
    + apply IH. right. by destruct batch.
Qed.

Lemma flushed_four parts :
  length <$> parts = [1000; 1000; 1000; 1000] →
  length <$> flushed parts [] = [3; 1].
Proof.
  destruct parts as [|p1 [|p2 [|p3 [|p4 [|]]]]]; try done.
  intros [= H1 H2 H3 H4].
  rewrite flushed_keep by (unfold total; simpl; lia).
  rewrite flushed_keep by (unfold total; simpl; lia).
  rewrite flushed_keep by (unfold total; simpl; lia).
  rewrite flushed_flush by (unfold total; simpl; lia).
  done.
Qed.

End Batches.

Section BatchClaims.

Context (rt : runtime) (cfg : settings).

#[local] Existing Instance le_total.
#[local] Existing Instance le_trans.
#[local] Existing Instance le_antisymm.

Lemma sorted_spec (items : gset str) :
  StronglySorted Py.le (sorted items) ∧ sorted items ≡ₚ elements items.
Proof.
  split; [apply StronglySorted_merge_sort; apply _|apply merge_sort_Permutation].
Qed.

(** The order does not depend on the order in which the set is iterated. *)
Lemma sorted_unique (items : gset str) (l : list str) :
  StronglySorted Py.le l → l ≡ₚ elements items → l = sorted items.
Proof.
  intros Hl Hp. destruct (sorted_spec items) as [Hs Hq].
  apply (StronglySorted_unique Py.le); [done..|]. by rewrite Hp, Hq.
Qed.

Lemma sorted_empty : sorted ∅ = [].
Proof. unfold sorted. by rewrite elements_empty. Qed.

Lemma sorted_nonempty (items : gset str) : items ≠ ∅ → sorted items ≠ [].
Proof.
  intros Hne Hnil. apply Hne, leibniz_equiv, elements_empty_inv.
  apply Permutation_nil_r. destruct (sorted_spec items) as [_ Hp].
  by rewrite <-Hp, Hnil.
Qed.

Lemma send_in_chunks_run site_key items w :
  let w' := exec (send_in_chunks rt cfg site_key items) w in
  (alerts (log w')).*1 =
    (alerts (log w)).*1 ++
    (message rt site_key <$> flushed (render <$> sorted items) []).
Proof. apply (chunk_loop_run rt cfg site_key (sorted items) [] w). Qed.

Lemma length_message site_key batch :
  length (message rt site_key batch) =
  length (message rt site_key []) + total batch + 2 * (length batch - 1).
Proof.
  unfold message. rewrite !length_app, !length_join. simpl. unfold total. simpl. lia.
Qed.

(** C5. Batch boundaries: the dispatcher takes the items in lexicographic
    order of their strings, the one sorted arrangement of the set, and sends
    one notification per batch of [flushed]; the batches hold the fragments in
    that order; a batch is closed before the end only when the next fragment
    would take it past 3500; a batch never goes past 3500 by adding a fragment
    to it; the last batch sent is not empty; four fragments of 1000 go out as
    three and one. *)
Theorem batch_boundaries (site_key : str) (items : gset str) w :
  items ≠ ∅ →
  let todo := sorted items in
  let parts := render <$> todo in
  let batches := flushed parts [] in
  let w' := exec (send_in_chunks rt cfg site_key items) w in
  (StronglySorted Py.le todo ∧ todo ≡ₚ elements items ∧
   ∀ l, StronglySorted Py.le l → l ≡ₚ elements items → l = todo) ∧
  (alerts (log w')).*1 =
    (alerts (log w)).*1 ++ (message rt site_key <$> batches) ∧
  concat batches = parts ∧
  (∀ i b b', batches !! i = Some b → batches !! S i = Some b' →
     ∃ part rest, b' = part :: rest ∧ 3500 < total b + length part) ∧
  Forall (λ b, total b ≤ 3500 ∨ ∃ part, b = [part] ∧ 3500 < length part)
    batches ∧
  (∃ b, last batches = Some b ∧ b ≠ []) ∧
  (length <$> parts = [1000; 1000; 1000; 1000] → length <$> batches = [3; 1]).
Proof.
  intros Hne todo parts batches w'.
  split; [split; [apply sorted_spec|split; [apply sorted_spec|apply sorted_unique]]|].
  split; [apply send_in_chunks_run|].
  split; [apply concat_flushed|].
  split; [intros i b b'; apply flushed_boundary|].
  split; [apply flushed_fits; left; unfold total; simpl; lia|].
  split; [|apply flushed_four].
  apply flushed_last. left. subst parts todo.
  intros Hnil%fmap_nil_inv. by apply (sorted_nonempty items).
Qed.


End BatchClaims.

Lemma batch_boundaries_witness :
  let parts := render <$> sorted Sample.four_items in
  let w' := exec (send_in_chunks Sample.rt Sample.cfg (lit "mrb") Sample.four_items) initial in
  length <$> parts = [1000; 1000; 1000; 1000] ∧
  length <$> flushed parts [] = [3; 1] ∧
  (alerts (log w')).*1 = message Sample.rt (lit "mrb") <$> flushed parts [].
Proof.
  assert (length <$> (render <$> sorted Sample.four_items) = [1000; 1000; 1000; 1000])
    as Hlen by (vm_compute; reflexivity).
  destruct (batch_boundaries Sample.rt Sample.cfg (lit "mrb") Sample.four_items initial)
    as (_ & Ha & _ & _ & _ & _ & Hfour).
  - refine (bool_decide_eq_true_1 _ _). vm_compute. reflexivity.
  - split; [done|]. split; [by apply Hfour|]. apply Ha.
Defined.


(** ** The extractor *)

Section Extractor.

Context (rt : runtime) (cfg : settings).

Lemma extract_from (site : site_info) (anchors : page) (acc : gset str) :
  fold_left
    (λ current_links a,
       if keyword_match rt cfg a
       then current_links ∪ {[ canonical rt site a ]}
       else current_links)
    anchors acc =
  acc ∪ list_to_set (canonical rt site <$>
                       filter (λ a, keyword_match rt cfg a = true) anchors).
Proof.
  revert acc. induction anchors as [|a anchors IH]; intros acc; simpl.
  - by rewrite union_empty_r_L.
  - rewrite IH. unfold filter at 2. simpl.
    destruct (keyword_match rt cfg a) eqn:Hm; case_decide; try done.
    simpl. by rewrite union_assoc_L.
Qed.

(** C7 (as the code has it). Keyword filter: an anchor is retained exactly
    when its whitespace-normalised text, lower-cased, contains a keyword as it
    is written, the keyword not being lower-cased; the extracted set is made
    of the retained anchors, and of them only. When the keywords are written
    in lower case, an anchor is therefore retained exactly when its text,
    lower-cased, contains the lower-cased form of a keyword. *)
Theorem keyword_filter site a anchors :
  (keyword_match rt cfg a = true ↔
   ∃ kw, kw ∈ KEYWORDS cfg ∧ contains kw (lower rt (title_raw a)) = true) ∧
  extract rt cfg site anchors =
    list_to_set (canonical rt site <$>
                   filter (λ a, keyword_match rt cfg a = true) anchors) ∧
  (Forall (λ kw, lower rt kw = kw) (KEYWORDS cfg) →
   (keyword_match rt cfg a = true ↔
    ∃ kw, kw ∈ KEYWORDS cfg ∧
          contains (lower rt kw) (lower rt (title_raw a)) = true) ∧
   (keyword_match rt cfg a = true ↔
    ∃ kw pre suf, kw ∈ KEYWORDS cfg ∧
                  lower rt (title_raw a) = pre ++ lower rt kw ++ suf)).
Proof.
  assert (keyword_match rt cfg a = true ↔
          ∃ kw, kw ∈ KEYWORDS cfg ∧
                contains kw (lower rt (title_raw a)) = true) as Hv.
  { unfold keyword_match. rewrite existsb_exists. split.
    - intros (kw & Hin%list_elem_of_In & Hc). by exists kw.
    - intros (kw & Hin & Hc). exists kw. split; [by apply list_elem_of_In|done]. }
  split; [done|]. split.
  { unfold extract. by rewrite extract_from, union_empty_l_L. }
  intros Hlow. rewrite Forall_forall in Hlow.
  assert (keyword_match rt cfg a = true ↔
          ∃ kw, kw ∈ KEYWORDS cfg ∧
                contains (lower rt kw) (lower rt (title_raw a)) = true) as Hm.
  { rewrite Hv. split.
    - intros (kw & Hin & Hc). exists kw. split; [done|]. by rewrite (Hlow kw Hin).
    - intros (kw & Hin & Hc). exists kw. split; [done|].
      by rewrite (Hlow kw Hin) in Hc. }
  split; [done|].
  rewrite Hm. split.
  - intros (kw & Hin & (pre & suf & Heq)%contains_spec). by exists kw, pre, suf.
  - intros (kw & pre & suf & Hin & Heq). exists kw. split; [done|].
    apply contains_spec. eauto.
Qed.

End Extractor.

Lemma keyword_filter_witness :
  Forall (λ kw, lower Sample.rt kw = kw) (KEYWORDS Sample.cfg) ∧
  (keyword_match Sample.rt Sample.cfg Sample.notification = true ↔
   ∃ kw, kw ∈ KEYWORDS Sample.cfg ∧
         contains kw (lower Sample.rt (title_raw Sample.notification)) = true) ∧
  extract Sample.rt Sample.cfg Sample.mrb Sample.page1 =
    list_to_set (canonical Sample.rt Sample.mrb <$>
      filter (λ a, keyword_match Sample.rt Sample.cfg a = true) Sample.page1) ∧
  (keyword_match Sample.rt Sample.cfg Sample.notification = true ↔
   ∃ kw, kw ∈ KEYWORDS Sample.cfg ∧
         contains (lower Sample.rt kw)
           (lower Sample.rt (title_raw Sample.notification)) = true) ∧
  (keyword_match Sample.rt Sample.cfg Sample.notification = true ↔
   ∃ kw pre suf, kw ∈ KEYWORDS Sample.cfg ∧
                 lower Sample.rt (title_raw Sample.notification) =
                   pre ++ lower Sample.rt kw ++ suf).
Proof.
  assert (Forall (λ kw, lower Sample.rt kw = kw) (KEYWORDS Sample.cfg)) as Hlow
    by (refine (bool_decide_eq_true_1 _ _); vm_compute; reflexivity).
  pose proof (keyword_filter Sample.rt Sample.cfg Sample.mrb
                Sample.notification Sample.page1) as K.
  exact (conj Hlow (conj (proj1 K) (conj (proj1 (proj2 K))
    (proj2 (proj2 K) Hlow)))).
Defined.

(** The two titles of the specification: the first is retained, the second
    is dropped. *)
Example keyword_filter_titles :
  keyword_match Sample.rt Sample.cfg Sample.notification = true ∧
  keyword_match Sample.rt Sample.cfg Sample.holidays = false.
Proof. by vm_compute. Qed.

(** C7, as stated, fails for a keyword written in upper case, with the case
    mapping of ASCII: the title contains it whatever the case, and the anchor
    is dropped. *)
Lemma keyword_filter_counterexample :
  (∃ kw, kw ∈ KEYWORDS Sample.cfg_upper ∧
         contains (lower Sample.rt kw)
           (lower Sample.rt (title_raw Sample.notification)) = true) ∧
  keyword_match Sample.rt Sample.cfg_upper Sample.notification = false ∧
  extract Sample.rt Sample.cfg_upper Sample.mrb Sample.page1 = ∅.
Proof.
  split; [|split].
  - exists (lit "NEET MDS"). split; [apply list_elem_of_here|by vm_compute].
  - by vm_compute.
  - refine (bool_decide_eq_true_1 _ _). by vm_compute.
Qed.

(** ** The delimiter *)

Section Delimiter.

Lemma heading_url_split itm heading url :
  split_at_first (lit "::") itm = Some (heading, url) →
  heading_url itm = (heading, url).
Proof. unfold heading_url, split1. by intros ->. Qed.

(** C10. Delimiter collision: for an item whose title contains the
    delimiter, the dispatcher splits the stored string at the leftmost
    delimiter, which lies in the title: the link text is the part of the title
    before it, the link target is the rest of the title, the delimiter and
    the URL, and this pair is not the pair the item was made of. *)
Theorem delimiter_collision title url :
  contains (lit "::") title = true →
  ∃ before rest,
    title = before ++ lit "::" ++ rest ∧
    (∀ l1 l2, title = l1 ++ lit "::" ++ l2 → length before ≤ length l1) ∧
    heading_url (title ++ lit "::" ++ url) = (before, rest ++ lit "::" ++ url) ∧
    render (title ++ lit "::" ++ url) =
      lit "<a href=" ++ [quote_char] ++
      html_escape (rest ++ lit "::" ++ url) true ++ [quote_char] ++
      lit ">" ++ html_escape before true ++ lit "</a>" ∧
    (before, rest ++ lit "::" ++ url) ≠ (title, url).
Proof.
  intros Hc.
  destruct (split_at_first (lit "::") title) as [[before rest]|] eqn:Hs;
    [|apply (proj1 (split_at_first_None _ _)) in Hs; congruence].
  exists before, rest.
  pose proof (split_at_first_Some _ _ _ _ Hs) as Htitle.
  pose proof (split_at_first_app _ _ (lit "::" ++ url) _ _ Hs) as Hitem.
  apply heading_url_split in Hitem.
  split; [done|]. split; [intros l1 l2 Heq; exact (split_at_first_leftmost _ _ _ _ _ _ Hs Heq)|].
  split; [done|]. split; [unfold render; by rewrite Hitem|].
  intros [= Hb _]. apply (f_equal length) in Htitle.
  rewrite <-Hb, !length_app in Htitle. simpl in Htitle. lia.
Qed.

End Delimiter.

Lemma delimiter_collision_witness :
  let title := title_raw Sample.results in
  let url := urljoin Sample.rt (base_url Sample.mrb) (strip (href Sample.results)) in
  contains (lit "::") title = true ∧
  ∃ before rest,
    title = before ++ lit "::" ++ rest ∧
    (∀ l1 l2, title = l1 ++ lit "::" ++ l2 → length before ≤ length l1) ∧
    heading_url (title ++ lit "::" ++ url) = (before, rest ++ lit "::" ++ url) ∧
    render (title ++ lit "::" ++ url) =
      lit "<a href=" ++ [quote_char] ++
      html_escape (rest ++ lit "::" ++ url) true ++ [quote_char] ++
      lit ">" ++ html_escape before true ++ lit "</a>" ∧
    (before, rest ++ lit "::" ++ url) ≠ (title, url).
Proof.
  intros title url.
  assert (contains (lit "::") title = true) as Hc by (vm_compute; reflexivity).
  exact (conj Hc (delimiter_collision title url Hc)).
Defined.

(** On that item the link text is the title up to the delimiter and the
    rest of the title has moved into the link target. *)
Example delimiter_collision_results :
  heading_url (canonical Sample.rt Sample.mrb Sample.results) =
    (lit "Dental ", lit " Results::https://www.mrb.tn.gov.in/docs/r.pdf").
Proof. by vm_compute. Qed.

(** ** Runs of cycles *)

Section Runs.

Context (rt : runtime) (cfg : settings).







(** The cycle sends notifications for a set of items that an item of the
    stored snapshot is not in, and the item stays in the snapshot unless the
    write fails after the file was opened. *)
Lemma seen_item_not_resent site_key site itm w :
  stored site_key itm w →
  let w' := exec (check_site rt cfg site_key site) w in
  (∃ items : gset str,
     (itm ∉ items) ∧
     (alerts (log w')).*1 =
       (alerts (log w)).*1 ++
       (message rt site_key <$> flushed (render <$> sorted items) [])) ∧
  (next_write w ≠ DumpRaised → stored site_key itm w') ∧
  (stored site_key itm w' ∨ files w' !! site_key = Some Corrupt).
Proof.
  intros (data & Hd & Hin) w'.
  destruct (check_site_run rt cfg site_key site w) as (t & Ht & Hrun).
  fold w' in Hrun.
  destruct (observe_plain t Ht) as (Hta & _ & _).
  assert (∀ l, alerts (Say (Checking site_key) :: t ++ l) = alerts l) as Ha.
  { intros l. change (Say (Checking site_key) :: t ++ l)
      with ([Say (Checking site_key)] ++ t ++ l).
    by rewrite !alerts_app, Hta. }
  assert (files w' = files w → log w' = log w ++ Say (Checking site_key) :: t →
    (∃ items : gset str, (itm ∉ items) ∧
      (alerts (log w')).*1 =
        (alerts (log w)).*1 ++
        (message rt site_key <$> flushed (render <$> sorted items) [])) ∧
    (next_write w ≠ DumpRaised → stored site_key itm w') ∧
    (stored site_key itm w' ∨ files w' !! site_key = Some Corrupt)) as Hsame.
  { intros Hf Hl.
    assert (stored site_key itm w') as Hst by (exists data; by rewrite Hf).
    split; [|by split; [|left]].
    exists ∅. split; [apply not_elem_of_empty|].
    rewrite Hl, alerts_app, <-(app_nil_r t), Ha, sorted_empty. simpl.
    by rewrite !app_nil_r. }
  rewrite result_load_seen_links, Hd in Hrun.
  destruct (answered 3 (gets w)) as [anchors|]; [|by destruct Hrun; apply Hsame].
  simpl in Hrun.
  destruct (decide _) as [Hnew|_]; [|by destruct Hrun; apply Hsame].
  destruct Hrun as (ts & Hts & Hsent & Hf & Hl).
  set (new_items := extract rt cfg site anchors ∖ list_to_set data) in *.
  split.
  { exists new_items. split.
    + intros [_ Hnot]%elem_of_difference. by apply Hnot, elem_of_list_to_set.
    + rewrite Hl, alerts_app, Ha, alerts_app, !fmap_app, Hsent.
      destruct (observe_save_log site_key
        (elements (list_to_set data ∪ new_items)) (write_ok w)) as (-> & _).
      by rewrite app_nil_r. }
  unfold stored. rewrite Hf, saved_lookup.
  destruct (next_write w).
  - assert (∃ data0, Some (Json (elements (list_to_set data ∪ new_items))) =
                       Some (Json data0) ∧ itm ∈ data0) as Hst.
    { eexists. split; [done|].
      apply elem_of_elements, elem_of_union. left. by apply elem_of_list_to_set. }
    by split; [|left].
  - assert (∃ data0, files w !! site_key = Some (Json data0) ∧ itm ∈ data0) as Hst
      by (by exists data).
    by split; [|left].
  - by split; [|right].
Qed.

(** A cycle of one site leaves the snapshots of the other sites alone. *)
Lemma check_site_other_files site_key site k w :
  k ≠ site_key →
  files (exec (check_site rt cfg site_key site) w) !! k = files w !! k.
Proof.
  intros Hne. destruct (check_site_run rt cfg site_key site w) as (t & _ & Hrun).
  destruct (answered 3 (gets w)) as [anchors|]; [|by destruct Hrun as [-> _]].
  simpl in Hrun.
  destruct (result (load_seen_links site_key) w) as [last_links|].
  - destruct (decide _); [|by destruct Hrun as [-> _]].
    destruct Hrun as (ts & _ & _ & -> & _). by apply saved_other.
  - destruct Hrun as [-> _]. by apply saved_other.
Qed.

(** The same of a cycle that may raise. *)
Lemma seen_item_not_resent_or_raise site_key site itm w :
  stored site_key itm w →
  let w' := exec (check_site_or_raise rt cfg site_key site) w in
  (∃ items : gset str,
     (itm ∉ items) ∧
     (alerts (log w')).*1 =
       (alerts (log w)).*1 ++
       (message rt site_key <$> flushed (render <$> sorted items) [])) ∧
  (next_write w ≠ DumpRaised → stored site_key itm w') ∧
  (stored site_key itm w' ∨ files w' !! site_key = Some Corrupt).
Proof.
  intros Hst w'.
  pose proof (check_site_or_raise_run rt cfg site_key site w) as Hor.
  fold w' in Hor.
  destruct (result (check_site_or_raise rt cfg site_key site) w).
  - rewrite Hor. by apply seen_item_not_resent.
  - destruct Hor as (_ & Hf & _ & _ & t & Ht & Hl).
    destruct (observe_plain t Ht) as (Hta & _ & _).
    assert (stored site_key itm w') as Hst'.
    { destruct Hst as (data & Hd & Hin). exists data. by rewrite Hf. }
    split; [|by split; [|left]].
    exists ∅. split; [apply not_elem_of_empty|].
    rewrite Hl. change (Say (Checking site_key) :: t)
      with ([Say (Checking site_key)] ++ t).
    rewrite !alerts_app, Hta, sorted_empty. simpl. by rewrite !app_nil_r.
Qed.

Lemma check_site_or_raise_other_files site_key site k w :
  k ≠ site_key →
  files (exec (check_site_or_raise rt cfg site_key site) w) !! k = files w !! k.
Proof.
  intros Hne.
  pose proof (check_site_or_raise_run rt cfg site_key site w) as Hor.
  destruct (result (check_site_or_raise rt cfg site_key site) w).
  - simpl in Hor. rewrite Hor. by apply check_site_other_files.
  - destruct Hor as (_ & -> & _). done.
Qed.


(** Along any run of cycles in which no write fails after the file was
    opened, whatever else the environment answers, a stored item stays
    stored. *)
Theorem stored_along_runs w w' :
  rtc (untorn_step rt cfg) w w' →
  ∀ site_key itm, stored site_key itm w → stored site_key itm w'.
Proof.
  induction 1 as [|w w1 w' (k & info & g & p & b & _ & Hb & ->) _ IH]; [done|].
  intros site_key itm Hst. apply IH.
  assert (stored site_key itm (refill g p b w)) as Hst'
    by (destruct Hst as (data & Hd & Hin); by exists data).
  destruct (decide (site_key = k)) as [->|Hne].
  - apply seen_item_not_resent_or_raise; [done|].
    unfold next_write. simpl. destruct b as [|r b]; [done|].
    intros ->. apply Hb, list_elem_of_here.
  - destruct Hst' as (data & Hd & Hin). exists data.
    by rewrite check_site_or_raise_other_files.
Qed.

(** [check_site] implements the diff engine of the specification: when the
    fetch is answered, the notifications sent are those of the new items and
    the snapshot written, on a first run or when something is new, is the
    next state. *)
Lemma check_site_refines_diff site_key site w anchors :
  result (fetch_with_retry (url site) 3 5) w = Some anchors →
  let previous := result (load_seen_links site_key) w in
  let d := diff (extract rt cfg site anchors) previous in
  let w' := exec (check_site rt cfg site_key site) w in
  (alerts (log w')).*1 =
    (alerts (log w)).*1 ++
    (message rt site_key <$> flushed (render <$> sorted d.1) []) ∧
  dumps (log w') =
    dumps (log w) ++
    (if decide (previous = None ∨ d.1 ≠ ∅)
     then [(site_key, elements d.2, write_ok w)] else []).
Proof.
  intros Hfetch previous d w'. rewrite result_fetch_with_retry in Hfetch.
  destruct (check_site_run rt cfg site_key site w) as (t & Ht & Hrun).
  fold w' previous in Hrun. rewrite Hfetch in Hrun.
  destruct (observe_plain t Ht) as (Hta & Htd & _).
  assert (∀ l, alerts (Say (Checking site_key) :: t ++ l) = alerts l ∧
               dumps (Say (Checking site_key) :: t ++ l) = dumps l) as Hobs.
  { intros l. change (Say (Checking site_key) :: t ++ l)
      with ([Say (Checking site_key)] ++ t ++ l).
    by rewrite !alerts_app, !dumps_app, Hta, Htd. }
  subst d. destruct previous as [last_links|]; simpl in Hrun; simpl.
  - destruct (decide (_ ≠ ∅)) as [Hnew|Hnew].
    + destruct Hrun as (ts & Hts & Hsent & _ & ->).
      destruct (observe_notice ts Hts) as [Htsd _].
      destruct (observe_save_log site_key
        (elements (last_links ∪ extract rt cfg site anchors ∖ last_links))
        (write_ok w)) as (Hsa & Hsd & _).
      rewrite decide_True by (by right).
      rewrite alerts_app, dumps_app.
      destruct (Hobs (ts ++ save_log site_key
        (elements (last_links ∪ extract rt cfg site anchors ∖ last_links))
        (write_ok w))) as [-> ->].
      rewrite alerts_app, dumps_app, Hsa, Htsd, Hsd, app_nil_r, fmap_app.
      by rewrite Hsent.
    + destruct Hrun as [_ ->].
      apply dec_stable in Hnew. rewrite Hnew, sorted_empty.
      rewrite decide_False by (intros [?|?]; done).
      rewrite alerts_app, dumps_app, <-(app_nil_r t).
      destruct (Hobs []) as [-> ->]. simpl. by rewrite !app_nil_r.
  - destruct Hrun as [_ ->].
    destruct (observe_save_log site_key
      (elements (extract rt cfg site anchors)) (write_ok w)) as (Hsa & Hsd & _).
    try rewrite decide_True by (by left). rewrite sorted_empty.
    rewrite alerts_app, dumps_app.
    destruct (Hobs (save_log site_key (elements (extract rt cfg site anchors))
                      (write_ok w) ++ [Say (Initialized site_key)])) as [-> ->].
    rewrite alerts_app, dumps_app, Hsa, Hsd. simpl. by rewrite !app_nil_r.
Qed.

End Runs.

(** When the first fragment is itself longer than 3500 characters, the batch
    flushed before it is empty: the first notification is the header alone
    (24 characters here), the second carries the fragment. *)
Example header_only_message :
  let item := Sample.long_item 600 97%N in
  length <$> (render <$> sorted {[ item ]}) = [3628] ∧
  length <$> (alerts (log (exec
    (send_in_chunks Sample.rt Sample.cfg (lit "mrb") {[ item ]}) initial))).*1 =
    [24; 3652].
Proof. split; vm_compute; reflexivity. Qed.




(** * Further properties *)

(** ** The store *)

Section Store.


(** Two sites have the same snapshot file only if they are the same site. *)
Theorem links_file_for_inj STORAGE_DIR k1 k2 :
  links_file_for STORAGE_DIR k1 = links_file_for STORAGE_DIR k2 ↔ k1 = k2.
Proof.
  split; [|by intros ->].
  unfold links_file_for, path_join.
  change (startswith (lit "/") (lit "seen_links_" ++ k1 ++ lit ".json")) with false.
  change (startswith (lit "/") (lit "seen_links_" ++ k2 ++ lit ".json")) with false.
  intros Heq.
  assert (lit "seen_links_" ++ k1 ++ lit ".json" =
          lit "seen_links_" ++ k2 ++ lit ".json") as Hname.
  { destruct (last STORAGE_DIR) as [c|]; [|done].
    destruct (c =? 47)%N; [by apply app_inv_head in Heq|].
    by apply app_inv_head, app_inv_head in Heq. }
  by apply app_inv_head, app_inv_tail in Hname.
Qed.

End Store.

(** ** Telegram *)

Section Telegram.

Context (cfg : settings).

(** The result of a send: the message is accepted exactly when both
    credentials are set and the API answers 200; the API is asked once, and
    not at all when a credential is missing; the call is recorded with its
    result and leaves the snapshots alone. *)
Theorem send_telegram_message_result (html_message : str) (w : world) :
  let r := result (send_telegram_message cfg html_message) w in
  let w' := exec (send_telegram_message cfg html_message) w in
  let configured := truthy (BOT_TOKEN cfg) && truthy (CHAT_ID cfg) in
  (r = true ↔ configured = true ∧ ∃ rest, posts w = Status 200 :: rest) ∧
  posts w' = (if configured then tail (posts w) else posts w) ∧
  files w' = files w ∧ gets w' = gets w ∧ writes w' = writes w ∧
  alerts (log w') = alerts (log w) ++ [(html_message, r)].
Proof.
  intros r w' configured.
  split; [|split; [|split; [|split; [|split]]]];
    [| | | | |apply send_telegram_message_run].
  all: subst r w' configured; unfold send_telegram_message, result, exec.
  all: destruct w as [f g p b l];
    destruct (truthy (BOT_TOKEN cfg)), (truthy (CHAT_ID cfg)); simpl;
    try done; try (split; [done|by intros [? _]]).
  all: unfold mbind, io_bind, http_post; simpl.
  all: destruct p as [|[status_code|] p]; simpl;
    try destruct (Nat.eqb_spec status_code 200) as [->|Hne]; simpl; try done.
  - split; [done|]. by intros [_ [? ?]].
  - split; [eauto|done].
  - split; [done|]. intros [_ [? [= ?]]]. done.
  - split; [done|]. by intros [_ [? ?]].
Qed.

End Telegram.

(** ** The fetch, for every number of attempts *)

Section Fetch.

Lemma failed_attempts_waiting url retries delay k attempt :
  attempt + k ≤ retries →
  failed_attempts url retries delay k attempt =
  flat_map (λ i, [Get url false; Say (AttemptFailed i url); Sleep delay])
    (seq attempt k).
Proof.
  revert attempt. induction k as [|k IH]; intros attempt Hle; [done|].
  simpl. rewrite IH by lia.
  by destruct (Nat.ltb_spec attempt retries); [|lia].
Qed.

Lemma fetch_attempts_answered url retries delay todo attempt w k body rest :
  k < todo → gets w = replicate k None ++ Some body :: rest →
  fetch_attempts url retries delay todo attempt w =
  (Some body,
   set_log (log w ++ failed_attempts url retries delay k attempt ++ [Get url true])
     (set_gets rest w)).
Proof.
  revert todo attempt w. induction k as [|k IH]; intros todo attempt w Hk Hg.
  - destruct todo as [|todo]; [lia|]. rewrite fetch_attempts_unfold, Hg. done.
  - destruct todo as [|todo]; [lia|]. rewrite fetch_attempts_unfold, Hg. simpl.
    erewrite IH; [|lia|reflexivity].
    destruct w as [f g p b l]. simpl. unfold set_log, set_gets. simpl.
    do 2 f_equal. rewrite app_nil_r, <-!app_assoc. simpl. by rewrite <-?app_assoc.
Qed.

(** The fetch returns the first page it is answered with: when the first
    [k] attempts fail and the next one, still within [retries], is answered,
    it returns that answer after [k] failed GETs, each followed by a wait of
    [delay], and one more GET; it asks for nothing further and writes no
    file. *)
Theorem fetch_returns_first_answer (url : str) (retries delay : nat)
    (w : world) (k : nat) (body : page) (rest : list (option page)) :
  k < retries →
  gets w = replicate k None ++ Some body :: rest →
  let w' := exec (fetch_with_retry url retries delay) w in
  result (fetch_with_retry url retries delay) w = Some body ∧
  gets w' = rest ∧
  files w' = files w ∧
  log w' =
    log w ++
    flat_map (λ i, [Get url false; Say (AttemptFailed i url); Sleep delay])
      (seq 1 k) ++
    [Get url true].
Proof.
  intros Hk Hg w'. subst w'. unfold fetch_with_retry, result, exec.
  rewrite (fetch_attempts_answered url retries delay retries 1 w k body rest Hk Hg).
  rewrite failed_attempts_waiting by lia. by destruct w.
Qed.

Lemma requests_app l1 l2 : requests (l1 ++ l2) = requests l1 + requests l2.
Proof. apply sum_list_with_app. Qed.

Lemma naps_app l1 l2 : naps (l1 ++ l2) = naps l1 + naps l2.
Proof. apply sum_list_with_app. Qed.

Lemma count_failed_attempts url retries delay k attempt :
  requests (failed_attempts url retries delay k attempt) = k ∧
  naps (failed_attempts url retries delay k attempt) = k `min` (retries - attempt).
Proof.
  revert attempt. induction k as [|k IH]; intros attempt; [done|].
  destruct (IH (S attempt)) as [Hr Hn].
  change (failed_attempts url retries delay (S k) attempt)
    with ([Get url false; Say (AttemptFailed attempt url)] ++
          (if attempt <? retries then [Sleep delay] else []) ++
          failed_attempts url retries delay k (S attempt)).
  rewrite !requests_app, !naps_app, Hr, Hn.
  destruct (Nat.ltb_spec attempt retries); unfold requests, naps;
    cbn [sum_list_with]; lia.
Qed.

Lemma last_failed_attempts url retries delay k attempt d :
  attempt + k = S retries →
  last (failed_attempts url retries delay k attempt) ≠ Some (Sleep d).
Proof.
  revert attempt. induction k as [|k IH]; intros attempt Hlast; [done|].
  change (failed_attempts url retries delay (S k) attempt)
    with ([Get url false; Say (AttemptFailed attempt url)] ++
          (if attempt <? retries then [Sleep delay] else []) ++
          failed_attempts url retries delay k (S attempt)).
  destruct k as [|k].
  - destruct (Nat.ltb_spec attempt retries); [lia|]. done.
  - rewrite app_assoc, last_app.
    specialize (IH (S attempt) ltac:(lia)).
    destruct (last (failed_attempts url retries delay (S k) (S attempt)))
      as [e|] eqn:He; [done|].
    by apply last_None in He.
Qed.

(** What the fetch did, by what it returned. *)
Lemma fetch_attempts_shape url retries delay todo attempt w :
  let w' := exec (fetch_attempts url retries delay todo attempt) w in
  files w' = files w ∧
  match result (fetch_attempts url retries delay todo attempt) w with
  | Some _ => ∃ k, k < todo ∧
      log w' = log w ++ failed_attempts url retries delay k attempt ++ [Get url true]
  | None => log w' = log w ++ failed_attempts url retries delay todo attempt
  end.
Proof.
  split; [apply within_fetch_attempts|].
  destruct (result _ w) as [body|] eqn:Hres.
  - rewrite result_fetch_attempts in Hres.
    assert (∃ k rest, k < todo ∧
              gets w = replicate k None ++ Some body :: rest) as (k & rest & Hk & Hg).
    { clear -Hres. revert Hres. generalize (gets w). clear w.
      induction todo as [|todo IH]; intros tape; [done|].
      destruct tape as [|[b|] tape]; simpl; [done| |].
      - intros [= ->]. exists 0, tape. split; [lia|done].
      - intros (k & rest & Hk & ->)%IH. exists (S k), rest. split; [lia|done]. }
    exists k. split; [done|]. unfold exec.
    rewrite (fetch_attempts_answered _ _ _ _ _ _ _ _ _ Hk Hg). by destruct w.
  - rewrite result_fetch_attempts in Hres. by apply log_fetch_attempts_failed.
Qed.

(** Whatever the answers, the fetch makes at most [retries] requests and
    waits once between two requests, never after the last one; it gives up
    only after [retries] requests; it writes no file. *)
Theorem fetch_with_retry_bounds (url : str) (retries delay : nat) (w : world) :
  let w' := exec (fetch_with_retry url retries delay) w in
  ∃ t, log w' = log w ++ t ∧
       requests t ≤ retries ∧
       naps t = requests t - 1 ∧
       (∀ d, last t ≠ Some (Sleep d)) ∧
       (result (fetch_with_retry url retries delay) w = None →
        requests t = retries) ∧
       files w' = files w.
Proof.
  intros w'.
  destruct (fetch_attempts_shape url retries delay retries 1 w) as [Hf Hshape].
  fold (fetch_with_retry url retries delay) in Hf, Hshape. fold w' in Hf, Hshape.
  destruct (result (fetch_with_retry url retries delay) w) as [body|].
  - destruct Hshape as (k & Hk & Hl).
    destruct (count_failed_attempts url retries delay k 1) as [Hr Hn].
    eexists. split; [exact Hl|].
    rewrite requests_app, naps_app, Hr, Hn.
    split; [unfold requests; simpl; lia|].
    split; [unfold requests, naps; simpl; lia|].
    split; [intros d; by rewrite last_snoc|]. done.
  - destruct (count_failed_attempts url retries delay retries 1) as [Hr Hn].
    eexists. split; [exact Hshape|]. rewrite Hr, Hn.
    split; [done|]. split; [lia|]. split; [|done].
    intros d. destruct retries as [|n]; [done|].
    apply last_failed_attempts. lia.
Qed.

End Fetch.

Lemma fetch_returns_first_answer_witness :
  1 < 3 ∧
  gets Sample.w0 = replicate 1 None ++ Some Sample.page1 :: [] ∧
  let w' := exec (fetch_with_retry (url Sample.mrb) 3 5) Sample.w0 in
  result (fetch_with_retry (url Sample.mrb) 3 5) Sample.w0 = Some Sample.page1 ∧
  gets w' = [] ∧
  files w' = files Sample.w0 ∧
  log w' =
    log Sample.w0 ++
    flat_map (λ i, [Get (url Sample.mrb) false;
                    Say (AttemptFailed i (url Sample.mrb)); Sleep 5])
      (seq 1 1) ++
    [Get (url Sample.mrb) true].
Proof.
  assert (1 < 3) as Hk by lia.
  assert (gets Sample.w0 = replicate 1 None ++ Some Sample.page1 :: []) as Hg
    by reflexivity.
  exact (conj Hk (conj Hg
    (fetch_returns_first_answer (url Sample.mrb) 3 5 Sample.w0 1 Sample.page1 []
       Hk Hg))).
Defined.

(** ** Titles *)

Section Titles.

Implicit Types (s cur word : str) (ws : list str).

Lemma spaceless_app s1 s2 :
  spaceless (s1 ++ s2) = spaceless s1 && spaceless s2.
Proof. apply forallb_app. Qed.

Lemma spaceless_elem_of s c : spaceless s = true → c ∈ s → isspace c = false.
Proof.
  unfold spaceless. rewrite forallb_forall. intros Hs Hc%list_elem_of_In.
  apply negb_true_iff. by apply Hs.
Qed.

(** The words that [split()] returns are not empty and hold no white
    space. *)
Lemma split_ws_from_words cur s :
  spaceless cur = true →
  Forall (λ word, word ≠ [] ∧ spaceless word = true) (split_ws_from cur s).
Proof.
  revert cur. induction s as [|c s IH]; intros cur Hcur; simpl.
  - destruct cur; [done|]. by constructor.
  - destruct (isspace c) eqn:Hc.
    + destruct cur; [by apply IH|]. constructor; [done|by apply IH].
    + apply IH. rewrite spaceless_app, Hcur. simpl. by rewrite Hc.
Qed.

Lemma split_ws_from_word cur word s :
  spaceless word = true →
  split_ws_from cur (word ++ s) = split_ws_from (cur ++ word) s.
Proof.
  revert cur. induction word as [|c word IH]; intros cur Hw; simpl.
  - by rewrite app_nil_r.
  - simpl in Hw. apply andb_true_iff in Hw as [Hc%negb_true_iff Hw].
    rewrite Hc, IH by done. by rewrite <-app_assoc.
Qed.

Lemma split_ws_from_space cur s :
  cur ≠ [] → split_ws_from cur (32%N :: s) = cur :: split_ws_from [] s.
Proof. by destruct cur. Qed.

(** Splitting what was joined with single spaces gives the words back. *)
Lemma split_ws_join ws :
  Forall (λ word, word ≠ [] ∧ spaceless word = true) ws →
  split_ws (join (lit " ") ws) = ws.
Proof.
  unfold split_ws. induction 1 as [|word ws [Hne Hword] Hws IH]; [done|].
  destruct ws as [|word' ws].
  - simpl. pose proof (split_ws_from_word [] word [] Hword) as Hsplit.
    rewrite app_nil_r in Hsplit. rewrite Hsplit. simpl. by destruct word.
  - change (join (lit " ") (word :: word' :: ws))
      with (word ++ 32%N :: join (lit " ") (word' :: ws)).
    rewrite split_ws_from_word, split_ws_from_space by done.
    by rewrite IH.
Qed.

Lemma split_ws_from_nil cur s :
  split_ws_from cur s = [] ↔ cur = [] ∧ blank s = true.
Proof.
  revert cur. induction s as [|c s IH]; intros cur; simpl.
  - destruct cur; split; try done. by intros [? _].
  - destruct (isspace c) eqn:Hc; simpl.
    + destruct cur; [apply IH|]. split; [done|by intros [? _]].
    + rewrite IH. split; [|by intros [_ ?]].
      intros [Hnil _]. by apply app_eq_nil in Hnil as [_ ?].
Qed.

Lemma elem_of_join sep ws c :
  c ∈ join sep ws → c ∈ sep ∨ ∃ word, word ∈ ws ∧ c ∈ word.
Proof.
  induction ws as [|word ws IH]; [by intros ?%elem_of_nil|].
  destruct ws as [|word' ws].
  - intros Hc. right. exists word. split; [apply list_elem_of_here|done].
  - change (join sep (word :: word' :: ws))
      with (word ++ sep ++ join sep (word' :: ws)).
    intros [Hc|[Hc|Hc]%elem_of_app]%elem_of_app.
    + right. exists word. split; [apply list_elem_of_here|done].
    + by left.
    + destruct (IH Hc) as [?|(w0 & Hw0 & ?)]; [by left|].
      right. exists w0. split; [by apply list_elem_of_further|done].
Qed.

Lemma head_join sep ws c :
  Forall (λ word, word ≠ [] ∧ spaceless word = true) ws →
  head (join sep ws) = Some c → isspace c = false.
Proof.
  intros Hws. destruct Hws as [|word ws [Hne Hword] _]; [done|].
  assert (head (join sep (word :: ws)) = head word) as ->.
  { destruct ws; [done|]. simpl. by destruct word. }
  destruct word as [|c' word]; [done|]. intros [= ->].
  apply (spaceless_elem_of (c :: word)); [done|apply list_elem_of_here].
Qed.

Lemma last_join sep ws c :
  Forall (λ word, word ≠ [] ∧ spaceless word = true) ws →
  last (join sep ws) = Some c → isspace c = false.
Proof.
  induction 1 as [|word ws [Hne Hword] Hws IH]; [done|].
  destruct ws as [|word' ws].
  - simpl. intros Hl. apply (spaceless_elem_of word); [done|].
    by apply last_Some_elem_of.
  - change (join sep (word :: word' :: ws))
      with (word ++ sep ++ join sep (word' :: ws)).
    assert (join sep (word' :: ws) ≠ []) as Hj.
    { apply Forall_cons in Hws as [[Hne' _] _].
      destruct ws; simpl; [done|]. by destruct word'. }
    rewrite !last_app.
    destruct (last (join sep (word' :: ws))) as [c'|] eqn:Hl;
      [|by apply last_None in Hl].
    intros [= ->]. by apply IH.
Qed.

Lemma title_raw_nil (a : anchor) :
  title_raw a = [] ↔ blank (get_text a) = true.
Proof.
  unfold title_raw.
  pose proof (split_ws_from_words [] (get_text a) eq_refl) as Hws.
  fold (split_ws (get_text a)) in Hws. split.
  - intros Hnil.
    assert (split_ws_from [] (get_text a) = []) as Hs.
    { unfold split_ws in *.
      destruct Hws as [|word ws [Hne _] _]; [done|].
      destruct ws; simpl in Hnil; [done|]. by destruct word. }
    by apply split_ws_from_nil in Hs as [_ ?].
  - intros Hb. unfold split_ws.
    by rewrite (proj2 (split_ws_from_nil [] (get_text a)) (conj eq_refl Hb)).
Qed.

(** The title of an anchor is in normal form: normalising it again changes
    nothing; the only white space in it is the plain space; it neither
    starts nor ends with white space; it is empty exactly when the text of the
    anchor is empty or white space only. *)
Theorem title_raw_normal (a : anchor) :
  let t := title_raw a in
  title_raw {| get_text := t; href := href a |} = t ∧
  (∀ c, c ∈ t → isspace c = true → c = 32%N) ∧
  (∀ c, head t = Some c → isspace c = false) ∧
  (∀ c, last t = Some c → isspace c = false) ∧
  (t = [] ↔ blank (get_text a) = true).
Proof.
  intros t. subst t. unfold title_raw. simpl.
  pose proof (split_ws_from_words [] (get_text a) eq_refl) as Hws.
  fold (split_ws (get_text a)) in Hws.
  split; [by rewrite split_ws_join|].
  split; [|split; [|split]].
  - intros c [Hc|(word & Hword & Hc)]%elem_of_join Hsp.
    + by apply list_elem_of_singleton in Hc.
    + rewrite Forall_forall in Hws. destruct (Hws word Hword) as [_ Hs].
      by rewrite (spaceless_elem_of word c Hs Hc) in Hsp.
  - intros c. by apply head_join.
  - intros c. by apply last_join.
  - apply title_raw_nil.
Qed.

End Titles.

(** ** The extracted set *)

Section Extracted.

Context (rt : runtime) (cfg : settings).

Lemma elem_of_extract (site : site_info) (anchors : page) (itm : str) :
  itm ∈ extract rt cfg site anchors ↔
  ∃ a, a ∈ anchors ∧ keyword_match rt cfg a = true ∧ itm = canonical rt site a.
Proof.
  unfold extract. rewrite extract_from, union_empty_l_L, elem_of_list_to_set.
  rewrite list_elem_of_fmap. split.
  - intros (a & -> & [Hm Ha]%list_elem_of_filter). by exists a.
  - intros (a & Ha & Hm & ->). exists a. split; [done|].
    by apply list_elem_of_filter.
Qed.

(** An anchor without visible text is skipped: when no keyword is the empty
    string (and lower-casing the empty string gives the empty string), an
    anchor whose text is empty or white space only is not retained. *)
Theorem blank_text_is_skipped (site : site_info) (a : anchor) :
  lower rt [] = [] →
  Forall (λ kw, kw ≠ []) (KEYWORDS cfg) →
  blank (get_text a) = true →
  keyword_match rt cfg a = false ∧ extract rt cfg site [a] = ∅.
Proof.
  intros Hlow Hkw Hblank.
  assert (keyword_match rt cfg a = false) as Hm.
  { unfold keyword_match.
    rewrite (proj2 (title_raw_nil a) Hblank), Hlow.
    apply not_true_is_false. intros (kw & Hin & Hc)%existsb_exists.
    rewrite Forall_forall in Hkw.
    apply list_elem_of_In, Hkw in Hin. by destruct kw. }
  split; [done|]. unfold extract. simpl. by rewrite Hm.
Qed.

(** The extracted set holds exactly the items of the retained anchors, so
    neither the order nor the repetition of the anchors on the page matters,
    and the set of two pages put together is the union of their sets. *)
Theorem extract_as_a_set (site : site_info) (p1 p2 : page) :
  (∀ itm, itm ∈ extract rt cfg site p1 ↔
     ∃ a, a ∈ p1 ∧ keyword_match rt cfg a = true ∧ itm = canonical rt site a) ∧
  extract rt cfg site (p1 ++ p2) =
    extract rt cfg site p1 ∪ extract rt cfg site p2 ∧
  ((∀ a, a ∈ p1 ↔ a ∈ p2) → extract rt cfg site p1 = extract rt cfg site p2).
Proof.
  split; [intros itm; apply elem_of_extract|]. split.
  - apply set_eq. intros itm.
    rewrite elem_of_union, !elem_of_extract. split.
    + intros (a & [Ha|Ha]%elem_of_app & Hm & ->); [left|right]; by exists a.
    + intros [(a & Ha & Hm & ->)|(a & Ha & Hm & ->)]; exists a;
        (split; [apply elem_of_app; by eauto|done]).
  - intros Hsame. apply set_eq. intros itm. rewrite !elem_of_extract.
    split; intros (a & Ha & Hm & ->); exists a; (split; [by apply Hsame|done]).
Qed.

End Extracted.

Lemma blank_text_is_skipped_witness :
  lower Sample.rt [] = [] ∧
  Forall (λ kw, kw ≠ []) (KEYWORDS Sample.cfg) ∧
  blank (get_text Sample.icon) = true ∧
  keyword_match Sample.rt Sample.cfg Sample.icon = false ∧
  extract Sample.rt Sample.cfg Sample.mrb [Sample.icon] = ∅.
Proof.
  assert (lower Sample.rt [] = []) as Hlow by reflexivity.
  assert (Forall (λ kw, kw ≠ []) (KEYWORDS Sample.cfg)) as Hkw
    by (repeat constructor; discriminate).
  assert (blank (get_text Sample.icon) = true) as Hblank by reflexivity.
  exact (conj Hlow (conj Hkw (conj Hblank
    (blank_text_is_skipped Sample.rt Sample.cfg Sample.mrb Sample.icon
       Hlow Hkw Hblank)))).
Defined.

(** ** Fragments *)

Section Fragments.

Implicit Types (s itm title url : str).

Lemma count_occ_html_escape s c :
  (c = 60 ∨ c = 62 ∨ c = 34 ∨ c = 39)%N →
  count_occ N.eq_dec (html_escape s true) c = 0.
Proof.
  intros Hc. apply count_occ_not_In. unfold html_escape.
  rewrite in_flat_map. intros (x & _ & Hin). unfold escape_char in Hin.
  repeat (destruct (_ =? _)%N eqn:? in Hin; simpl in Hin);
    repeat destruct Hin as [<-|Hin]; try done;
    destruct Hc as [?|[?|[?|?]]]; try done; subst x; done.
Qed.

(** Escaping: no text taken from the page can open or close a tag or an
    attribute. In an escaped text there is no [<], [>], double quote or
    apostrophe, and in a fragment the only ones are those of the link itself:
    two [<], two [>], two double quotes, no apostrophe. *)
Theorem render_is_escaped s itm :
  Forall (λ c, c ≠ 60 ∧ c ≠ 62 ∧ c ≠ 34 ∧ c ≠ 39)%N (html_escape s true) ∧
  count_occ N.eq_dec (render itm) 60%N = 2 ∧
  count_occ N.eq_dec (render itm) 62%N = 2 ∧
  count_occ N.eq_dec (render itm) 34%N = 2 ∧
  count_occ N.eq_dec (render itm) 39%N = 0.
Proof.
  split.
  - apply Forall_forall. intros c Hc%list_elem_of_In.
    repeat split; intros ->;
      apply (count_occ_In N.eq_dec) in Hc;
      rewrite count_occ_html_escape in Hc by auto; lia.
  - unfold render. destruct (heading_url itm) as [heading url].
    rewrite !count_occ_app, !count_occ_html_escape by auto.
    repeat split; reflexivity.
Qed.

Lemma startswith_delimiter s url :
  s ≠ [] →
  startswith (lit "::") (s ++ lit "::" ++ url) =
  startswith (lit "::") (s ++ [58%N]).
Proof. destruct s as [|c [|d s]]; [done| |done]. intros _. simpl. done. Qed.

Lemma split_at_first_title title url :
  contains (lit "::") (title ++ [58%N]) = false →
  split_at_first (lit "::") (title ++ lit "::" ++ url) = Some (title, url).
Proof.
  induction title as [|c title IH]; [done|].
  intros Hc.
  change (contains (lit "::") ((c :: title) ++ [58%N]))
    with (startswith (lit "::") ((c :: title) ++ [58%N]) ||
          contains (lit "::") (title ++ [58%N])) in Hc.
  apply orb_false_iff in Hc as [Hs Hc].
  change (split_at_first (lit "::") ((c :: title) ++ lit "::" ++ url))
    with (if startswith (lit "::") ((c :: title) ++ lit "::" ++ url)
          then Some ([], drop 2 ((c :: title) ++ lit "::" ++ url))
          else match split_at_first (lit "::") (title ++ lit "::" ++ url) with
               | Some (h, t) => Some (c :: h, t)
               | None => None
               end).
  rewrite startswith_delimiter, Hs by done. by rewrite IH.
Qed.

(** The split recovers the title and the URL of an item exactly when the
    title, with a colon put after it, does not contain the delimiter: the
    title must not contain [::] and must not end with a colon. *)
Theorem heading_url_round_trip title url :
  heading_url (title ++ lit "::" ++ url) = (title, url) ↔
  contains (lit "::") (title ++ [58%N]) = false.
Proof.
  split.
  - intros Hsplit. apply not_true_is_false.
    intros (l1 & l2 & Heq)%contains_spec.
    assert (length l1 < length title) as Hlt.
    { apply (f_equal length) in Heq. rewrite !length_app in Heq.
      simpl in Heq. lia. }
    assert (title ++ lit "::" ++ url = l1 ++ lit "::" ++ (l2 ++ 58%N :: url))
      as Hitem.
    { change (lit "::" ++ url) with ([58%N] ++ 58%N :: url).
      rewrite app_assoc, Heq. by rewrite <-!app_assoc. }
    destruct (split_at_first (lit "::") (title ++ lit "::" ++ url))
      as [[h t]|] eqn:Hs.
    + pose proof (split_at_first_leftmost _ _ _ _ _ _ Hs Hitem) as Hle.
      rewrite (heading_url_split _ _ _ Hs) in Hsplit.
      injection Hsplit as -> _. lia.
    + apply split_at_first_None in Hs.
      assert (contains (lit "::") (title ++ lit "::" ++ url) = true) as Hc
        by (apply contains_spec; eauto).
      congruence.
  - intros Hc. by apply heading_url_split, split_at_first_title.
Qed.

(** The two ways the split comes out: an item without the delimiter is both
    the link text and the link target; otherwise the link text, the delimiter
    and the link target make up the item and the link text holds no
    delimiter. *)
Theorem heading_url_cases itm :
  (contains (lit "::") itm = false ∧ heading_url itm = (itm, itm)) ∨
  (∃ heading url,
     heading_url itm = (heading, url) ∧
     itm = heading ++ lit "::" ++ url ∧
     contains (lit "::") heading = false).
Proof.
  destruct (split_at_first (lit "::") itm) as [[heading url]|] eqn:Hs.
  - right. exists heading, url.
    split; [by apply heading_url_split|].
    pose proof (split_at_first_Some _ _ _ _ Hs) as Hitm. split; [done|].
    apply not_true_is_false. intros (l1 & l2 & Heq)%contains_spec.
    assert (itm = l1 ++ lit "::" ++ (l2 ++ lit "::" ++ url)) as Hitm'
      by (rewrite Hitm, Heq; by rewrite <-!app_assoc).
    pose proof (split_at_first_leftmost _ _ _ _ _ _ Hs Hitm') as Hle.
    apply (f_equal length) in Heq. rewrite !length_app in Heq.
    simpl in Heq. lia.
  - left. split; [by apply split_at_first_None|].
    unfold heading_url, split1. by rewrite Hs.
Qed.

End Fragments.

(** ** Notifications of one dispatch *)

Section Notifications.

Context (rt : runtime) (cfg : settings).

Implicit Types (parts batch : list str).

Lemma length_flushed parts batch :
  length (flushed parts batch) ≤ length parts + 1.
Proof.
  revert batch. induction parts as [|part parts IH]; intros batch.
  - destruct batch; simpl; lia.
  - destruct (flushed_cases part parts batch) as [[_ ->]|[_ ->]]; simpl.
    + specialize (IH [part]). lia.
    + specialize (IH (batch ++ [part])). lia.
Qed.

Lemma flushed_small parts batch :
  Forall (λ part, length part ≤ 3500) parts →
  Forall (λ b, b ≠ []) (flushed parts batch) ∧
  length (flushed parts batch) ≤
    length parts + match batch with [] => 0 | _ => 1 end.
Proof.
  intros Hsmall. revert batch.
  induction Hsmall as [|part parts Hpart _ IH]; intros batch.
  - destruct batch; simpl; [done|]. split; [by constructor|lia].
  - destruct (flushed_cases part parts batch) as [[Hbig ->]|[_ ->]].
    + destruct batch as [|p0 batch]; [unfold total in Hbig; simpl in Hbig; lia|].
      destruct (IH [part]) as [Hne Hlen]. split; [by constructor|].
      simpl in *. lia.
    + destruct (IH (batch ++ [part])) as [Hne Hlen]. split; [done|].
      destruct batch; simpl in *; lia.
Qed.

Lemma length_sorted (items : gset str) : length (sorted items) = size items.
Proof.
  unfold sorted. by rewrite merge_sort_Permutation.
Qed.

(** A dispatch sends at most one notification more than there are items,
    and none for no item. *)
Theorem notifications_at_most (site_key : str) (items : gset str) (w : world) :
  let batches := flushed (render <$> sorted items) [] in
  let w' := exec (send_in_chunks rt cfg site_key items) w in
  (alerts (log w')).*1 =
    (alerts (log w)).*1 ++ (message rt site_key <$> batches) ∧
  length batches ≤ size items + 1 ∧
  (items = ∅ → alerts (log w') = alerts (log w)).
Proof.
  intros batches w'.
  pose proof (send_in_chunks_run rt cfg site_key items w) as Hsent.
  fold w' batches in Hsent.
  split; [done|]. split.
  - subst batches. etrans; [apply length_flushed|].
    by rewrite length_fmap, length_sorted.
  - intros ->. subst w'. unfold send_in_chunks. by rewrite sorted_empty.
Qed.

(** When no fragment is longer than 3500 characters, every notification
    carries at least one item, and there are at most as many notifications as
    items. *)
Theorem no_empty_notification (site_key : str) (items : gset str) (w : world) :
  Forall (λ part, length part ≤ 3500) (render <$> sorted items) →
  let batches := flushed (render <$> sorted items) [] in
  let w' := exec (send_in_chunks rt cfg site_key items) w in
  (alerts (log w')).*1 =
    (alerts (log w)).*1 ++ (message rt site_key <$> batches) ∧
  Forall (λ b, b ≠ []) batches ∧
  length batches ≤ size items.
Proof.
  intros Hsmall batches w'.
  split; [apply send_in_chunks_run|].
  destruct (flushed_small (render <$> sorted items) [] Hsmall) as [Hne Hlen].
  split; [done|]. subst batches.
  rewrite length_fmap, length_sorted in Hlen. lia.
Qed.

Lemma send_telegram_message_tapes (html_message : str) (w : world) :
  let w' := exec (send_telegram_message cfg html_message) w in
  posts w' = (if truthy (BOT_TOKEN cfg) && truthy (CHAT_ID cfg)
              then tail (posts w) else posts w) ∧
  gets w' = gets w.
Proof.
  unfold send_telegram_message, exec.
  destruct w as [f g p b l];
    destruct (truthy (BOT_TOKEN cfg)), (truthy (CHAT_ID cfg)); simpl; try done.
  unfold mbind, io_bind, http_post; simpl.
  destruct p as [|[status_code|] p]; simpl; try done.
  by destruct (status_code =? 200).
Qed.

Lemma chunk_loop_tapes (site_key : str) (todo : list str) batch (w : world) :
  let w' := exec (chunk_loop rt cfg site_key todo batch (total batch)) w in
  let n := length (flushed (render <$> todo) batch) in
  posts w' = (if truthy (BOT_TOKEN cfg) && truthy (CHAT_ID cfg)
              then drop n (posts w) else posts w) ∧
  gets w' = gets w.
Proof.
  revert batch w. induction todo as [|itm todo IH]; intros batch w.
  - simpl. destruct batch as [|part batch].
    + simpl. by destruct (_ && _).
    + rewrite exec_bind, exec_ret.
      destruct (send_telegram_message_tapes (message rt site_key (part :: batch)) w)
        as [-> ->].
      simpl. destruct (_ && _); [|done]. by destruct (posts w).
  - simpl. destruct (3500 <? total batch + length (render itm)) eqn:Hbig.
    + rewrite exec_bind.
      replace (length (render itm)) with (total [render itm])
        by (unfold total; simpl; lia).
      destruct (IH [render itm]
        (exec (send_telegram_message cfg (message rt site_key batch)) w))
        as [-> ->].
      destruct (send_telegram_message_tapes (message rt site_key batch) w)
        as [-> ->].
      simpl. destruct (_ && _); [|done]. split; [|done].
      destruct (posts w); simpl; [by rewrite !drop_nil|done].
    + rewrite <-total_snoc. apply IH.
Qed.

(** A dispatch asks the API once per notification, in order, whether or not
    the earlier ones were accepted, and not at all when a credential is
    missing; it reads no page and writes no snapshot. *)
Theorem dispatch_posts_once_each (site_key : str) (items : gset str) (w : world) :
  let w' := exec (send_in_chunks rt cfg site_key items) w in
  let n := length (flushed (render <$> sorted items) []) in
  posts w' = (if truthy (BOT_TOKEN cfg) && truthy (CHAT_ID cfg)
              then drop n (posts w) else posts w) ∧
  length (alerts (log w')) = length (alerts (log w)) + n ∧
  gets w' = gets w ∧ files w' = files w ∧ writes w' = writes w.
Proof.
  intros w' n.
  destruct (chunk_loop_tapes site_key (sorted items) [] w) as [Hp Hg].
  destruct (chunk_loop_run rt cfg site_key (sorted items) [] w)
    as [(Hf & Hw & _) Ha].
  split; [done|]. split; [|done].
  apply (f_equal length) in Ha.
  by rewrite length_app, !length_fmap in Ha.
Qed.

End Notifications.

Lemma no_empty_notification_witness :
  Forall (λ part, length part ≤ 3500) (render <$> sorted Sample.four_items) ∧
  let batches := flushed (render <$> sorted Sample.four_items) [] in
  let w' := exec (send_in_chunks Sample.rt Sample.cfg (lit "mrb")
                    Sample.four_items) initial in
  (alerts (log w')).*1 =
    (alerts (log initial)).*1 ++ (message Sample.rt (lit "mrb") <$> batches) ∧
  Forall (λ b, b ≠ []) batches ∧
  length batches ≤ size Sample.four_items.
Proof.
  assert (Forall (λ part, length part ≤ 3500)
            (render <$> sorted Sample.four_items)) as Hsmall.
  { assert (forallb (λ part, length part <=? 3500)
              (render <$> sorted Sample.four_items) = true) as Hall
      by (vm_compute; reflexivity).
    rewrite forallb_forall in Hall. apply Forall_forall.
    intros part Hpart%list_elem_of_In. by apply Nat.leb_le, Hall. }
  exact (conj Hsmall
    (no_empty_notification Sample.rt Sample.cfg (lit "mrb") Sample.four_items
       initial Hsmall)).
Defined.

(** ** Outcomes of a cycle *)

Section Outcomes.

Context (rt : runtime) (cfg : settings).

(** The files after a cycle whose fetch was answered. *)
Lemma check_site_files (site_key : str) (site : site_info) (w : world)
    (anchors : page) :
  result (fetch_with_retry (url site) 3 5) w = Some anchors →
  let previous := result (load_seen_links site_key) w in
  let d := diff (extract rt cfg site anchors) previous in
  files (exec (check_site rt cfg site_key site) w) =
    if decide (previous = None ∨ d.1 ≠ ∅)
    then saved site_key (elements d.2) w
    else files w.
Proof.
  intros Hfetch previous d. rewrite result_fetch_with_retry in Hfetch.
  destruct (check_site_run rt cfg site_key site w) as (t & _ & Hrun).
  fold previous in Hrun. rewrite Hfetch in Hrun.
  subst d. destruct previous as [last_links|]; simpl in Hrun; simpl.
  - destruct (decide (_ ≠ ∅)) as [Hnew|Hnew].
    + destruct Hrun as (ts & _ & _ & -> & _). by rewrite decide_True by (by right).
    + destruct Hrun as [-> _]. by rewrite decide_False by (intros [?|?]; done).
  - by destruct Hrun as [-> _].
Qed.

(** On a page whose retained links [urljoin] accepts the cycle returns, and
    is the cycle of [check_site]; on a page with one it rejects the cycle
    raises. *)
Lemma check_site_or_raise_fetched (site_key : str) (site : site_info) (w : world)
    (anchors : page) :
  result (fetch_with_retry (url site) 3 5) w = Some anchors →
  result (check_site_or_raise rt cfg site_key site) w =
    (if extract_raises rt cfg site anchors then Raised else Returned) ∧
  (extract_raises rt cfg site anchors = false →
   exec (check_site_or_raise rt cfg site_key site) w =
     exec (check_site rt cfg site_key site) w).
Proof.
  intros Hfetch. rewrite result_fetch_with_retry in Hfetch.
  pose proof (check_site_or_raise_run rt cfg site_key site w) as Hor.
  rewrite result_check_site_or_raise, Hfetch in Hor |- *.
  split; [done|]. intros Hno. by rewrite Hno in Hor.
Qed.

(** The cycle implements the diff engine: when the fetch is answered with a
    page all of whose retained links [urljoin] accepts, the cycle returns, the
    notifications are those of [current − previous] (none on a first run), a
    snapshot is handed to the store exactly on a first run or when something
    is new, and it is [previous ∪ newItems] (or [current] on a first run). The
    site's file then holds that snapshot if the write goes through, is what
    it was if the file cannot be opened, and is unreadable if the write fails
    after that; without a write the files are what they were. *)
Theorem cycle_implements_diff (site_key : str) (site : site_info) (w : world)
    (anchors : page) :
  result (fetch_with_retry (url site) 3 5) w = Some anchors →
  extract_raises rt cfg site anchors = false →
  let previous := result (load_seen_links site_key) w in
  let d := diff (extract rt cfg site anchors) previous in
  let w' := exec (check_site_or_raise rt cfg site_key site) w in
  result (check_site_or_raise rt cfg site_key site) w = Returned ∧
  (alerts (log w')).*1 =
    (alerts (log w)).*1 ++
    (message rt site_key <$> flushed (render <$> sorted d.1) []) ∧
  dumps (log w') =
    dumps (log w) ++
    (if decide (previous = None ∨ d.1 ≠ ∅)
     then [(site_key, elements d.2, write_ok w)] else []) ∧
  files w' =
    (if decide (previous = None ∨ d.1 ≠ ∅)
     then match next_write w with
          | Written => <[site_key := Json (elements d.2)]> (files w)
          | OpenRaised => files w
          | DumpRaised => <[site_key := Corrupt]> (files w)
          end
     else files w).
Proof.
  intros Hfetch Hno previous d w'.
  destruct (check_site_or_raise_fetched site_key site w anchors Hfetch) as [Hr Hw].
  rewrite Hno in Hr. specialize (Hw Hno). fold w' in Hw.
  destruct (check_site_refines_diff rt cfg site_key site w anchors Hfetch)
    as [Ha Hd].
  rewrite <-Hw in Ha, Hd.
  split; [done|]. split; [done|]. split; [done|].
  rewrite Hw. by apply check_site_files.
Qed.

(** A cycle on a page with a retained link that [urljoin] rejects raises
    after the fetch: it sends nothing, hands no snapshot to the store, uses up
    no answer of the API and no write, and leaves every file as it was,
    also on a first run. *)
Theorem raising_cycle_does_nothing (site_key : str) (site : site_info)
    (w : world) (anchors : page) :
  result (fetch_with_retry (url site) 3 5) w = Some anchors →
  extract_raises rt cfg site anchors = true →
  let w' := exec (check_site_or_raise rt cfg site_key site) w in
  result (check_site_or_raise rt cfg site_key site) w = Raised ∧
  alerts (log w') = alerts (log w) ∧
  dumps (log w') = dumps (log w) ∧
  files w' = files w ∧ posts w' = posts w ∧ writes w' = writes w ∧
  cycles (log w') = cycles (log w) ++ [site_key].
Proof.
  intros Hfetch Hraise w'.
  destruct (check_site_or_raise_fetched site_key site w anchors Hfetch) as [Hr _].
  rewrite Hraise in Hr.
  pose proof (check_site_or_raise_run rt cfg site_key site w) as Hor.
  rewrite Hr in Hor. fold w' in Hor.
  destruct Hor as (_ & Hf & Hw & Hp & t & Ht & Hl).
  destruct (observe_plain t Ht) as (Hta & Htd & Htc).
  split; [done|]. rewrite Hl.
  change (Say (Checking site_key) :: t) with ([Say (Checking site_key)] ++ t).
  rewrite !alerts_app, !dumps_app, !cycles_app, Hta, Htd, Htc. simpl.
  by rewrite !app_nil_r.
Qed.


(** What the site loads after a cycle that found new items. *)
Lemma load_after_new_items (site_key : str) (site : site_info) (w : world)
    (anchors : page) (previous : gset str) :
  result (load_seen_links site_key) w = Some previous →
  result (fetch_with_retry (url site) 3 5) w = Some anchors →
  extract rt cfg site anchors ∖ previous ≠ ∅ →
  result (load_seen_links site_key) (exec (check_site rt cfg site_key site) w) =
    match next_write w with
    | Written => Some (previous ∪ extract rt cfg site anchors ∖ previous)
    | OpenRaised => Some previous
    | DumpRaised => Some ∅
    end.
Proof.
  intros Hload Hfetch Hnew.
  pose proof (check_site_files site_key site w anchors Hfetch) as Hf.
  rewrite Hload in Hf. simpl in Hf. rewrite decide_True in Hf by (by right).
  rewrite result_load_seen_links, Hf, saved_lookup.
  destruct (next_write w); [|by rewrite <-result_load_seen_links|done].
  by rewrite list_to_set_elements_L.
Qed.

(** A write that fails brings notifications again. On an initialised site,
    when new items are found and the snapshot cannot be written, the next
    cycle that extracts the same set sends the very notifications of this one
    if the file could not be opened, the snapshot being what it was; and if
    the write failed after that, the snapshot is unreadable and the next cycle
    sends the notifications of every item of the page, those that were stored
    before as well. *)
Theorem failed_write_repeats (site_key : str) (site : site_info) (w : world)
    (anchors anchors' : page) (previous : gset str)
    (g : list (option page)) (p : list post_result) (b : list write_result) :
  result (load_seen_links site_key) w = Some previous →
  result (fetch_with_retry (url site) 3 5) w = Some anchors →
  extract_raises rt cfg site anchors = false →
  extract rt cfg site anchors ∖ previous ≠ ∅ →
  next_write w ≠ Written →
  result (fetch_with_retry (url site) 3 5)
    (refill g p b (exec (check_site_or_raise rt cfg site_key site) w)) =
    Some anchors' →
  extract_raises rt cfg site anchors' = false →
  extract rt cfg site anchors' = extract rt cfg site anchors →
  let current := extract rt cfg site anchors in
  let w1 := exec (check_site_or_raise rt cfg site_key site) w in
  let w2 := exec (check_site_or_raise rt cfg site_key site) (refill g p b w1) in
  let kept := match next_write w with DumpRaised => ∅ | _ => previous end in
  result (load_seen_links site_key) w1 = Some kept ∧
  (alerts (log w1)).*1 =
    (alerts (log w)).*1 ++
    (message rt site_key <$> flushed (render <$> sorted (current ∖ previous)) []) ∧
  (alerts (log w2)).*1 =
    (alerts (log w1)).*1 ++
    (message rt site_key <$> flushed (render <$> sorted (current ∖ kept)) []).
Proof.
  intros Hload Hfetch Hno Hnew Hw Hfetch' Hno' Hsame current w1 w2 kept.
  destruct (check_site_or_raise_fetched site_key site w anchors Hfetch) as [_ H1].
  specialize (H1 Hno). fold w1 in H1.
  destruct (check_site_or_raise_fetched site_key site (refill g p b w1) anchors'
              Hfetch') as [_ H2].
  specialize (H2 Hno'). fold w2 in H2.
  destruct (check_site_refines_diff rt cfg site_key site w anchors Hfetch)
    as [Ha _].
  destruct (check_site_refines_diff rt cfg site_key site (refill g p b w1)
              anchors' Hfetch') as [Ha' _].
  rewrite <-H1 in Ha. rewrite <-H2 in Ha'.
  pose proof (load_after_new_items site_key site w anchors previous
                Hload Hfetch Hnew) as Hafter.
  rewrite <-H1 in Hafter.
  assert (result (load_seen_links site_key) w1 = Some kept) as Hkept.
  { rewrite Hafter. subst kept. by destruct (next_write w). }
  assert (result (load_seen_links site_key) (refill g p b w1) = Some kept)
    as Hload'.
  { rewrite result_load_seen_links in *.
    by change (files (refill g p b w1)) with (files w1). }
  rewrite Hload in Ha. rewrite Hload', Hsame in Ha'.
  split; [done|]. split; [done|].
  by change (log (refill g p b w1)) with (log w1) in Ha'.
Qed.

(** A cycle whose file cannot be opened changes no file, whatever the stored
    state and whatever the fetch brings; in particular a first run that
    cannot open its file leaves the site uninitialised. *)
Theorem failed_write_changes_nothing (site_key : str) (site : site_info)
    (w : world) :
  next_write w = OpenRaised →
  let w' := exec (check_site_or_raise rt cfg site_key site) w in
  files w' = files w ∧
  ∀ k, result (load_seen_links k) w' = result (load_seen_links k) w.
Proof.
  intros Hw w'.
  assert (files w' = files w) as Hf.
  { pose proof (check_site_or_raise_run rt cfg site_key site w) as Hor.
    fold w' in Hor.
    destruct (result (check_site_or_raise rt cfg site_key site) w);
      [|by destruct Hor as (_ & ? & _)].
    rewrite Hor.
    destruct (check_site_run rt cfg site_key site w) as (t & _ & Hrun).
    unfold saved in Hrun. rewrite Hw in Hrun.
    destruct (answered 3 (gets w)) as [anchors|]; [|by destruct Hrun].
    simpl in Hrun. destruct (result (load_seen_links site_key) w).
    - destruct (decide _); [|by destruct Hrun].
      by destruct Hrun as (ts & _ & _ & -> & _).
    - by destruct Hrun. }
  split; [done|].
  intros k. by rewrite !result_load_seen_links, Hf.
Qed.

Lemma first_run_alerts (site_key : str) (site : site_info) (w : world)
    (anchors : page) :
  result (load_seen_links site_key) w = None →
  result (fetch_with_retry (url site) 3 5) w = Some anchors →
  alerts (log (exec (check_site rt cfg site_key site) w)) = alerts (log w).
Proof.
  intros Hload Hfetch. rewrite result_fetch_with_retry in Hfetch.
  destruct (check_site_run rt cfg site_key site w) as (t & Ht & Hrun).
  rewrite Hfetch, Hload in Hrun. destruct Hrun as [_ ->].
  destruct (observe_plain t Ht) as (Hta & _ & _).
  destruct (observe_save_log site_key (elements (extract rt cfg site anchors))
              (write_ok w)) as (Hsa & _ & _).
  change (Say (Checking site_key) :: ?l) with ([Say (Checking site_key)] ++ l).
  rewrite !alerts_app, Hta, Hsa. simpl. by rewrite ?app_nil_r.
Qed.

(** A first run whose write fails after the file was opened leaves a file
    that cannot be read. The site is then no longer uninitialised: it loads
    the empty set, and the next cycle sends the notifications of every
    retained item of the page it fetches. *)
Theorem torn_first_run (site_key : str) (site : site_info) (w : world)
    (anchors anchors' : page)
    (g : list (option page)) (p : list post_result) (b : list write_result) :
  result (load_seen_links site_key) w = None →
  result (fetch_with_retry (url site) 3 5) w = Some anchors →
  extract_raises rt cfg site anchors = false →
  next_write w = DumpRaised →
  result (fetch_with_retry (url site) 3 5)
    (refill g p b (exec (check_site_or_raise rt cfg site_key site) w)) =
    Some anchors' →
  extract_raises rt cfg site anchors' = false →
  let w1 := exec (check_site_or_raise rt cfg site_key site) w in
  let w2 := exec (check_site_or_raise rt cfg site_key site) (refill g p b w1) in
  alerts (log w1) = alerts (log w) ∧
  files w1 !! site_key = Some Corrupt ∧
  result (load_seen_links site_key) w1 = Some ∅ ∧
  (alerts (log w2)).*1 =
    (alerts (log w1)).*1 ++
    (message rt site_key <$>
       flushed (render <$> sorted (extract rt cfg site anchors')) []).
Proof.
  intros Hload Hfetch Hno Hw Hfetch' Hno' w1 w2.
  destruct (check_site_or_raise_fetched site_key site w anchors Hfetch) as [_ H1].
  specialize (H1 Hno). fold w1 in H1.
  destruct (check_site_or_raise_fetched site_key site (refill g p b w1) anchors'
              Hfetch') as [_ H2].
  specialize (H2 Hno'). fold w2 in H2.
  pose proof (first_run_alerts site_key site w anchors Hload Hfetch) as Ha.
  pose proof (check_site_files site_key site w anchors Hfetch) as Hf.
  rewrite <-H1 in Ha, Hf. rewrite Hload in Hf. simpl in Hf.
  assert (files w1 !! site_key = Some Corrupt) as Hfile
    by (by rewrite Hf, saved_lookup, Hw).
  assert (result (load_seen_links site_key) w1 = Some ∅) as Hafter
    by (by rewrite result_load_seen_links, Hfile).
  split; [done|]. split; [done|]. split; [done|].
  destruct (check_site_refines_diff rt cfg site_key site (refill g p b w1)
              anchors' Hfetch') as [Ha' _].
  rewrite <-H2 in Ha'.
  assert (result (load_seen_links site_key) (refill g p b w1) = Some ∅) as Hload'.
  { rewrite result_load_seen_links in *.
    by change (files (refill g p b w1)) with (files w1). }
  rewrite Hload' in Ha'. simpl in Ha'. rewrite difference_empty_L in Ha'.
  by change (log (refill g p b w1)) with (log w1) in Ha'.
Qed.





End Outcomes.

Lemma cycle_implements_diff_witness :
  result (fetch_with_retry (url Sample.mrb) 3 5) Sample.w4 = Some Sample.page2 ∧
  extract_raises Sample.rt Sample.cfg Sample.mrb Sample.page2 = false ∧
  let previous := result (load_seen_links (lit "mrb")) Sample.w4 in
  let d := diff (extract Sample.rt Sample.cfg Sample.mrb Sample.page2) previous in
  let w' := exec (check_site_or_raise Sample.rt Sample.cfg (lit "mrb") Sample.mrb)
              Sample.w4 in
  result (check_site_or_raise Sample.rt Sample.cfg (lit "mrb") Sample.mrb)
    Sample.w4 = Returned ∧
  (alerts (log w')).*1 =
    (alerts (log Sample.w4)).*1 ++
    (message Sample.rt (lit "mrb") <$> flushed (render <$> sorted d.1) []) ∧
  dumps (log w') =
    dumps (log Sample.w4) ++
    (if decide (previous = None ∨ d.1 ≠ ∅)
     then [(lit "mrb", elements d.2, write_ok Sample.w4)] else []) ∧
  files w' =
    (if decide (previous = None ∨ d.1 ≠ ∅)
     then match next_write Sample.w4 with
          | Written => <[lit "mrb" := Json (elements d.2)]> (files Sample.w4)
          | OpenRaised => files Sample.w4
          | DumpRaised => <[lit "mrb" := Corrupt]> (files Sample.w4)
          end
     else files Sample.w4).
Proof.
  assert (result (fetch_with_retry (url Sample.mrb) 3 5) Sample.w4 =
          Some Sample.page2) as Hfetch by (vm_compute; reflexivity).
  assert (extract_raises Sample.rt Sample.cfg Sample.mrb Sample.page2 = false)
    as Hno by (vm_compute; reflexivity).
  exact (conj Hfetch (conj Hno
    (cycle_implements_diff Sample.rt Sample.cfg (lit "mrb") Sample.mrb
       Sample.w4 Sample.page2 Hfetch Hno))).
Defined.

Lemma raising_cycle_does_nothing_witness :
  result (fetch_with_retry (url Sample.mrb) 3 5) Sample.w12 = Some Sample.page3 ∧
  extract_raises Sample.rt Sample.cfg Sample.mrb Sample.page3 = true ∧
  let w' := exec (check_site_or_raise Sample.rt Sample.cfg (lit "mrb") Sample.mrb)
              Sample.w12 in
  result (check_site_or_raise Sample.rt Sample.cfg (lit "mrb") Sample.mrb)
    Sample.w12 = Raised ∧
  alerts (log w') = alerts (log Sample.w12) ∧
  dumps (log w') = dumps (log Sample.w12) ∧
  files w' = files Sample.w12 ∧ posts w' = posts Sample.w12 ∧
  writes w' = writes Sample.w12 ∧
  cycles (log w') = cycles (log Sample.w12) ++ [lit "mrb"].
Proof.
  assert (result (fetch_with_retry (url Sample.mrb) 3 5) Sample.w12 =
          Some Sample.page3) as Hfetch by (vm_compute; reflexivity).
  assert (extract_raises Sample.rt Sample.cfg Sample.mrb Sample.page3 = true)
    as Hraise by (vm_compute; reflexivity).
  exact (conj Hfetch (conj Hraise
    (raising_cycle_does_nothing Sample.rt Sample.cfg (lit "mrb") Sample.mrb
       Sample.w12 Sample.page3 Hfetch Hraise))).
Defined.


(** The write of the cycle that finds the second notice fails after the file
    was opened: the next cycle, on the same page, sends the notifications of
    both notices. *)
Lemma failed_write_repeats_witness :
  let previous := extract Sample.rt Sample.cfg Sample.mrb Sample.page1 in
  let g := [Some Sample.page2] in
  let p := [Status 200] in
  let b := [Written] in
  result (load_seen_links (lit "mrb")) Sample.w10 = Some previous ∧
  result (fetch_with_retry (url Sample.mrb) 3 5) Sample.w10 = Some Sample.page2 ∧
  extract_raises Sample.rt Sample.cfg Sample.mrb Sample.page2 = false ∧
  extract Sample.rt Sample.cfg Sample.mrb Sample.page2 ∖ previous ≠ ∅ ∧
  next_write Sample.w10 ≠ Written ∧
  result (fetch_with_retry (url Sample.mrb) 3 5)
    (refill g p b
       (exec (check_site_or_raise Sample.rt Sample.cfg (lit "mrb") Sample.mrb)
          Sample.w10)) =
    Some Sample.page2 ∧
  let current := extract Sample.rt Sample.cfg Sample.mrb Sample.page2 in
  let w1 := exec (check_site_or_raise Sample.rt Sample.cfg (lit "mrb") Sample.mrb)
              Sample.w10 in
  let w2 := exec (check_site_or_raise Sample.rt Sample.cfg (lit "mrb") Sample.mrb)
              (refill g p b w1) in
  let kept := match next_write Sample.w10 with
              | DumpRaised => ∅
              | _ => previous
              end in
  result (load_seen_links (lit "mrb")) w1 = Some kept ∧
  (alerts (log w1)).*1 =
    (alerts (log Sample.w10)).*1 ++
    (message Sample.rt (lit "mrb") <$>
       flushed (render <$> sorted (current ∖ previous)) []) ∧
  (alerts (log w2)).*1 =
    (alerts (log w1)).*1 ++
    (message Sample.rt (lit "mrb") <$>
       flushed (render <$> sorted (current ∖ kept)) []).
Proof.
  intros previous g p b.
  assert (result (load_seen_links (lit "mrb")) Sample.w10 = Some previous) as Hload
    by (refine (bool_decide_eq_true_1 _ _); vm_compute; reflexivity).
  assert (result (fetch_with_retry (url Sample.mrb) 3 5) Sample.w10 =
          Some Sample.page2) as Hfetch by (vm_compute; reflexivity).
  assert (extract_raises Sample.rt Sample.cfg Sample.mrb Sample.page2 = false)
    as Hno by (vm_compute; reflexivity).
  assert (extract Sample.rt Sample.cfg Sample.mrb Sample.page2 ∖ previous ≠ ∅)
    as Hnew.
  { intros Heq. apply (f_equal size) in Heq. rewrite size_empty in Heq.
    revert Heq. vm_compute. discriminate. }
  assert (next_write Sample.w10 ≠ Written) as Hw by discriminate.
  assert (result (fetch_with_retry (url Sample.mrb) 3 5)
            (refill g p b
               (exec (check_site_or_raise Sample.rt Sample.cfg (lit "mrb")
                        Sample.mrb) Sample.w10)) = Some Sample.page2) as Hfetch'
    by (vm_compute; reflexivity).
  exact (conj Hload (conj Hfetch (conj Hno (conj Hnew (conj Hw (conj Hfetch'
    (failed_write_repeats Sample.rt Sample.cfg (lit "mrb") Sample.mrb
       Sample.w10 Sample.page2 Sample.page2 previous g p b
       Hload Hfetch Hno Hnew Hw Hfetch' Hno eq_refl))))))).
Defined.

(** On that input the second cycle sends one notification with both notices,
    the first cycle one with the new notice only. *)
Example failed_write_repeats_sample :
  let m := check_site_or_raise Sample.rt Sample.cfg (lit "mrb") Sample.mrb in
  let w1 := exec m Sample.w10 in
  let w2 := exec m (refill [Some Sample.page2] [Status 200] [Written] w1) in
  length (alerts (log w1)) = 1 ∧ length (alerts (log w2)) = 2 ∧
  dispatched (canonical Sample.rt Sample.mrb Sample.notification)
    (drop (length (log w1)) (log w2)) = true ∧
  dispatched (canonical Sample.rt Sample.mrb Sample.notification)
    (log w1) = false.
Proof. vm_compute. done. Qed.

Lemma failed_write_changes_nothing_witness :
  next_write Sample.w9 = OpenRaised ∧
  let w' := exec (check_site_or_raise Sample.rt Sample.cfg (lit "mrb") Sample.mrb)
              Sample.w9 in
  files w' = files Sample.w9 ∧
  ∀ k, result (load_seen_links k) w' = result (load_seen_links k) Sample.w9.
Proof.
  assert (next_write Sample.w9 = OpenRaised) as Hw by reflexivity.
  exact (conj Hw
    (failed_write_changes_nothing Sample.rt Sample.cfg (lit "mrb") Sample.mrb
       Sample.w9 Hw)).
Defined.

Lemma torn_first_run_witness :
  let g := [Some Sample.page1] in
  let p := [Status 200] in
  let b := [Written] in
  result (load_seen_links (lit "mrb")) Sample.w13 = None ∧
  result (fetch_with_retry (url Sample.mrb) 3 5) Sample.w13 = Some Sample.page1 ∧
  extract_raises Sample.rt Sample.cfg Sample.mrb Sample.page1 = false ∧
  next_write Sample.w13 = DumpRaised ∧
  result (fetch_with_retry (url Sample.mrb) 3 5)
    (refill g p b
       (exec (check_site_or_raise Sample.rt Sample.cfg (lit "mrb") Sample.mrb)
          Sample.w13)) =
    Some Sample.page1 ∧
  let w1 := exec (check_site_or_raise Sample.rt Sample.cfg (lit "mrb") Sample.mrb)
              Sample.w13 in
  let w2 := exec (check_site_or_raise Sample.rt Sample.cfg (lit "mrb") Sample.mrb)
              (refill g p b w1) in
  alerts (log w1) = alerts (log Sample.w13) ∧
  files w1 !! lit "mrb" = Some Corrupt ∧
  result (load_seen_links (lit "mrb")) w1 = Some ∅ ∧
  (alerts (log w2)).*1 =
    (alerts (log w1)).*1 ++
    (message Sample.rt (lit "mrb") <$>
       flushed (render <$> sorted
         (extract Sample.rt Sample.cfg Sample.mrb Sample.page1)) []).
Proof.
  intros g p b.
  assert (result (load_seen_links (lit "mrb")) Sample.w13 = None) as Hload
    by (vm_compute; reflexivity).
  assert (result (fetch_with_retry (url Sample.mrb) 3 5) Sample.w13 =
          Some Sample.page1) as Hfetch by (vm_compute; reflexivity).
  assert (extract_raises Sample.rt Sample.cfg Sample.mrb Sample.page1 = false)
    as Hno by (vm_compute; reflexivity).
  assert (next_write Sample.w13 = DumpRaised) as Hw by reflexivity.
  assert (result (fetch_with_retry (url Sample.mrb) 3 5)
            (refill g p b
               (exec (check_site_or_raise Sample.rt Sample.cfg (lit "mrb")
                        Sample.mrb) Sample.w13)) = Some Sample.page1) as Hfetch'
    by (vm_compute; reflexivity).
  exact (conj Hload (conj Hfetch (conj Hno (conj Hw (conj Hfetch'
    (torn_first_run Sample.rt Sample.cfg (lit "mrb") Sample.mrb
       Sample.w13 Sample.page1 Sample.page1 g p b
       Hload Hfetch Hno Hw Hfetch' Hno)))))).
Defined.


Lemma stored_along_runs_witness :
  let itm := canonical Sample.rt Sample.mrb Sample.notification in
  rtc (untorn_step Sample.rt Sample.cfg) Sample.w1 Sample.w5 ∧
  stored (lit "mrb") itm Sample.w1 ∧
  stored (lit "mrb") itm Sample.w5.
Proof.
  intros itm.
  assert (rtc (untorn_step Sample.rt Sample.cfg) Sample.w1 Sample.w5) as Hrun.
  { apply rtc_once. exists (lit "mrb"), Sample.mrb, [Some Sample.page2],
      [Status 500], [Written]. split; [apply list_elem_of_here|].
    split; [by intros [=]%list_elem_of_singleton|].
    pose proof (check_site_or_raise_run Sample.rt Sample.cfg (lit "mrb")
      Sample.mrb (refill [Some Sample.page2] [Status 500] [Written] Sample.w1))
      as Hor.
    assert (result (check_site_or_raise Sample.rt Sample.cfg (lit "mrb") Sample.mrb)
              (refill [Some Sample.page2] [Status 500] [Written] Sample.w1) =
            Returned) as Hret by (vm_compute; reflexivity).
    rewrite Hret in Hor. cbv zeta in Hor. unfold Sample.w5. symmetry. exact Hor. }
  assert (stored (lit "mrb") itm Sample.w1) as Hst.
  { eexists. split; [vm_compute; reflexivity|].
    refine (bool_decide_eq_true_1 _ _). vm_compute. reflexivity. }
  exact (conj Hrun (conj Hst
    (stored_along_runs Sample.rt Sample.cfg Sample.w1 Sample.w5 Hrun
       (lit "mrb") itm Hst))).
Defined.

(** ** White space around texts and links *)

Section Padding.

Context (rt : runtime).

Implicit Types (s l r cur : str).

Lemma blank_app s1 s2 : blank (s1 ++ s2) = blank s1 && blank s2.
Proof. apply forallb_app. Qed.

Lemma blank_rev s : blank (rev s) = blank s.
Proof.
  induction s as [|c s IH]; [done|]. simpl.
  rewrite blank_app, IH. simpl. by rewrite andb_true_r, andb_comm.
Qed.

Lemma split_ws_from_blank_l cur l s :
  blank l = true →
  split_ws_from cur (l ++ s) =
  match cur with
  | [] => split_ws_from [] s
  | _ => match l with [] => split_ws_from cur s | _ => cur :: split_ws_from [] s end
  end.
Proof.
  revert cur. induction l as [|c l IH]; intros cur Hl; [by destruct cur|].
  simpl in Hl. apply andb_true_iff in Hl as [Hc Hl]. simpl. rewrite Hc.
  destruct cur; rewrite IH by done; by destruct l.
Qed.

Lemma split_ws_from_blank_r cur s r :
  blank r = true → split_ws_from cur (s ++ r) = split_ws_from cur s.
Proof.
  intros Hr. revert cur. induction s as [|c s IH]; intros cur.
  - pose proof (split_ws_from_blank_l cur r [] Hr) as Hsplit.
    rewrite app_nil_r in Hsplit. simpl. rewrite Hsplit.
    destruct cur; [done|]. by destruct r.
  - simpl. destruct (isspace c); destruct cur; by rewrite ?IH.
Qed.

Lemma lstrip_blank_l l s : blank l = true → lstrip (l ++ s) = lstrip s.
Proof.
  induction l as [|c l IH]; [done|]. simpl.
  intros [Hc Hl]%andb_true_iff. rewrite Hc. by apply IH.
Qed.

Lemma lstrip_blank s : blank s = true → lstrip s = [].
Proof.
  intros Hs. rewrite <-(app_nil_r s). by rewrite lstrip_blank_l.
Qed.

Lemma lstrip_app s r : blank s = false → lstrip (s ++ r) = lstrip s ++ r.
Proof.
  induction s as [|c s IH]; [done|]. simpl.
  destruct (isspace c); [apply IH|done].
Qed.

Lemma lstrip_nil s : lstrip s = [] → blank s = true.
Proof.
  induction s as [|c s IH]; [done|]. simpl.
  destruct (isspace c); [apply IH|done].
Qed.

Lemma strip_padded l s r :
  blank l = true → blank r = true → strip (l ++ s ++ r) = strip s.
Proof.
  intros Hl Hr. unfold strip. rewrite lstrip_blank_l by done.
  destruct (blank s) eqn:Hs.
  - rewrite (lstrip_blank s), (lstrip_blank (s ++ r)); [done| |done].
    by rewrite blank_app, Hs.
  - rewrite lstrip_app, rev_app_distr by done.
    rewrite lstrip_blank_l; [done|]. by rewrite blank_rev.
Qed.

(** White space around the text of an anchor or around its link target does
    not change the item: the padded anchor has the same title, passes the
    keyword test exactly when the bare one does, and gives the same item. *)
Theorem canonical_ignores_padding (cfg : settings) (site : site_info)
    (text link l r l' r' : str) :
  blank l = true → blank r = true → blank l' = true → blank r' = true →
  let padded := {| get_text := l ++ text ++ r; href := l' ++ link ++ r' |} in
  let bare := {| get_text := text; href := link |} in
  title_raw padded = title_raw bare ∧
  keyword_match rt cfg padded = keyword_match rt cfg bare ∧
  canonical rt site padded = canonical rt site bare.
Proof.
  intros Hl Hr Hl' Hr' padded bare.
  assert (title_raw padded = title_raw bare) as Ht.
  { unfold title_raw, split_ws. simpl.
    by rewrite split_ws_from_blank_l, split_ws_from_blank_r. }
  split; [done|]. split.
  - unfold keyword_match. by rewrite Ht.
  - unfold canonical. rewrite Ht. simpl. by rewrite strip_padded.
Qed.

End Padding.

Lemma canonical_ignores_padding_witness :
  let l := [32; 32]%N in
  let r := [10]%N in
  let l' := [32]%N in
  let r' := [9; 32]%N in
  let text := lit "Assistant Surgeon (Dental) recruitment" in
  let link := lit "docs/as.pdf" in
  blank l = true ∧ blank r = true ∧ blank l' = true ∧ blank r' = true ∧
  let padded := {| get_text := l ++ text ++ r; href := l' ++ link ++ r' |} in
  let bare := {| get_text := text; href := link |} in
  title_raw padded = title_raw bare ∧
  keyword_match Sample.rt Sample.cfg padded =
    keyword_match Sample.rt Sample.cfg bare ∧
  canonical Sample.rt Sample.mrb padded = canonical Sample.rt Sample.mrb bare.
Proof.
  intros l r l' r' text link.
  exact (conj eq_refl (conj eq_refl (conj eq_refl (conj eq_refl
    (canonical_ignores_padding Sample.rt Sample.cfg Sample.mrb text link
       l r l' r' eq_refl eq_refl eq_refl eq_refl))))).
Defined.

(** ** The size of a notification *)

Section Sizes.

Context (rt : runtime) (cfg : settings).

Lemma length_render (itm : str) : 15 ≤ length (render itm).
Proof.
  unfold render. destruct (heading_url itm) as [heading url].
  rewrite !length_app. simpl. lia.
Qed.

Lemma total_at_least (b : list str) :
  Forall (λ part, 15 ≤ length part) b → 15 * length b ≤ total b.
Proof.
  unfold total. induction 1 as [|part b Hpart _ IH]; simpl; lia.
Qed.

Lemma flushed_parts (parts batch b : list str) (part : str) :
  b ∈ flushed parts batch → part ∈ b → part ∈ batch ++ parts.
Proof.
  intros Hb Hpart. rewrite <-concat_flushed.
  apply list_elem_of_In, in_concat. exists b.
  split; by apply list_elem_of_In.
Qed.

(** Every notification is short of 3965 characters plus its header, unless
    it carries a single fragment that is itself longer than 3500: a batch of
    at most 3500 characters holds at most 233 fragments, hence at most 232
    separators. *)
Theorem notification_length_bound (site_key : str) (items : gset str)
    (w : world) :
  let batches := flushed (render <$> sorted items) [] in
  let w' := exec (send_in_chunks rt cfg site_key items) w in
  (alerts (log w')).*1 =
    (alerts (log w)).*1 ++ (message rt site_key <$> batches) ∧
  Forall (λ b,
    length (message rt site_key b) ≤ length (message rt site_key []) + 3964 ∨
    ∃ part, b = [part] ∧ 3500 < length part) batches.
Proof.
  intros batches w'. split; [apply send_in_chunks_run|].
  pose proof (flushed_fits (render <$> sorted items) []
    ltac:(left; unfold total; simpl; lia)) as Hfits.
  fold batches in Hfits. rewrite Forall_forall in Hfits.
  apply Forall_forall. intros b Hb.
  destruct (Hfits b Hb) as [Hsmall|Hone]; [left|by right].
  assert (15 * length b ≤ total b) as Hcount.
  { apply total_at_least, Forall_forall. intros part Hpart.
    pose proof (flushed_parts _ _ _ _ Hb Hpart) as Hin. simpl in Hin.
    apply list_elem_of_fmap in Hin as (itm & -> & _). apply length_render. }
  rewrite length_message. lia.
Qed.

End Sizes.

(** ** Requests and waits *)

Section Requests.

Context (rt : runtime) (cfg : settings).

Lemma spends_refl (w : world) : spends 0 0 w w.
Proof. exists []. by rewrite app_nil_r. Qed.

Lemma spends_trans n1 m1 n2 m2 (w1 w2 w3 : world) :
  spends n1 m1 w1 w2 → spends n2 m2 w2 w3 → spends (n1 + n2) (m1 + m2) w1 w3.
Proof.
  intros (t1 & Hl1 & Hr1 & Hn1) (t2 & Hl2 & Hr2 & Hn2).
  exists (t1 ++ t2). rewrite Hl2, Hl1, <-app_assoc, requests_app, naps_app.
  split; [done|lia].
Qed.

Lemma spends_silent (w w' : world) : quiet silent w w' → spends 0 0 w w'.
Proof.
  intros (_ & _ & t & Hl & Ht). exists t. split; [done|].
  clear Hl. unfold requests, naps.
  induction t as [|e t IH]; [done|]. simpl in Ht.
  apply andb_true_iff in Ht as [He Ht]. destruct (IH Ht) as [Hr Hn].
  destruct e; try done; simpl; lia.
Qed.

Lemma silent_send_telegram_message (html_message : str) :
  within (quiet silent) (send_telegram_message cfg html_message).
Proof.
  unfold send_telegram_message.
  destruct (_ || _).
  - repeat (apply within_bind; [apply _|by apply within_emit|]; intros _).
    by apply within_ret, _.
  - apply within_bind; [apply _|apply within_http_post|].
    intros [status_code|]; [destruct (status_code =? 200)|];
      repeat (apply within_bind; [apply _|by apply within_emit|]; intros _);
      by apply within_ret, _.
Qed.

Lemma silent_chunk_loop (site_key : str) (todo batch : list str) (total_len : nat) :
  within (quiet silent) (chunk_loop rt cfg site_key todo batch total_len).
Proof.
  revert batch total_len.
  induction todo as [|itm todo IH]; intros batch total_len; simpl.
  - destruct batch; [by apply within_ret, _|].
    apply within_bind; [apply _|apply silent_send_telegram_message|]. intros _.
    by apply within_ret, _.
  - destruct (3500 <? _); [|done].
    apply within_bind; [apply _|apply silent_send_telegram_message|]. by intros _.
Qed.

Lemma spends_print (l : line) (w : world) : spends 0 0 w (exec (print l) w).
Proof. apply spends_silent. by apply within_emit. Qed.

Lemma spends_load (site_name : str) (w : world) :
  spends 0 0 w (exec (load_seen_links site_name) w).
Proof.
  apply spends_silent. unfold exec, load_seen_links.
  destruct (files w !! site_name) as [[|data]|]; simpl; [|reflexivity..].
  by apply within_emit.
Qed.

Lemma spends_save (site_name : str) (links_set : gset str) (w : world) :
  spends 0 0 w (exec (save_seen_links site_name links_set) w).
Proof.
  destruct (save_seen_links_run site_name links_set w) as [_ Hl].
  eexists. split; [exact Hl|]. by destruct (write_ok w).
Qed.

Lemma spends_fetch (url : str) (retries delay : nat) (w : world) :
  spends retries (retries - 1) w (exec (fetch_with_retry url retries delay) w).
Proof.
  destruct (fetch_attempts_shape url retries delay retries 1 w) as [_ Hshape].
  fold (fetch_with_retry url retries delay) in Hshape.
  destruct (result (fetch_with_retry url retries delay) w) as [body|].
  - destruct Hshape as (k & Hk & Hl).
    destruct (count_failed_attempts url retries delay k 1) as [Hr Hn].
    eexists. split; [exact Hl|]. rewrite requests_app, naps_app, Hr, Hn.
    unfold requests, naps. simpl. lia.
  - destruct (count_failed_attempts url retries delay retries 1) as [Hr Hn].
    eexists. split; [exact Hshape|]. rewrite Hr, Hn. lia.
Qed.

Lemma spends_check_site (site_key : str) (site : site_info) (w : world) :
  spends 3 2 w (exec (check_site rt cfg site_key site) w).
Proof.
  unfold check_site. rewrite !exec_bind.
  set (w1 := exec (print (Checking site_key)) w).
  set (last_links := result (load_seen_links site_key) w1).
  set (w2 := exec (load_seen_links site_key) w1).
  set (resp := result (fetch_with_retry (url site) 3 5) w2).
  set (w3 := exec (fetch_with_retry (url site) 3 5) w2).
  assert (spends 3 2 w w3) as H3.
  { apply (spends_trans 0 0 3 2 w w1 w3); [apply spends_print|].
    apply (spends_trans 0 0 3 2 w1 w2 w3); [apply spends_load|apply spends_fetch]. }
  assert (∀ w4, spends 0 0 w3 w4 → spends 3 2 w w4) as Hend.
  { intros w4 H4. by apply (spends_trans 3 2 0 0 w w3 w4). }
  destruct resp as [anchors|]; [|apply Hend, spends_print].
  destruct last_links as [last|].
  - destruct (decide _); [|apply Hend, spends_print].
    rewrite !exec_bind. apply Hend.
    set (new_items := extract rt cfg site anchors ∖ last).
    eapply (spends_trans 0 0 0 0); [apply spends_print|].
    eapply (spends_trans 0 0 0 0); [|apply spends_save].
    apply spends_silent. unfold send_in_chunks. apply silent_chunk_loop.
  - rewrite exec_bind. apply Hend.
    eapply (spends_trans 0 0 0 0); [apply spends_save|apply spends_print].
Qed.

(** A cycle asks its site at most three times and waits at most twice; a
    pass asks at most three times and waits at most twice per site of the
    table. *)
Theorem requests_bound (site_key : str) (site : site_info)
    (sites : list (str * site_info)) (w : world) :
  spends 3 2 w (exec (check_site rt cfg site_key site) w) ∧
  spends (3 * length sites) (2 * length sites) w
    (exec (check_sites rt cfg sites) w).
Proof.
  split; [apply spends_check_site|].
  revert w. induction sites as [|[k info] sites IH]; intros w.
  - apply spends_refl.
  - change (exec (check_sites rt cfg ((k, info) :: sites)) w)
      with (exec (check_sites rt cfg sites) (exec (check_site rt cfg k info) w)).
    destruct (spends_check_site k info w) as (t1 & Hl1 & Hr1 & Hn1).
    destruct (IH (exec (check_site rt cfg k info) w)) as (t2 & Hl2 & Hr2 & Hn2).
    exists (t1 ++ t2). rewrite Hl2, Hl1, <-app_assoc, requests_app, naps_app.
    split; [done|]. change (length ((k, info) :: sites)) with (S (length sites)).
    lia.
Qed.

End Requests.

(** ** Requests of a pass that may raise *)

Section RequestsOfPass.

Context (rt : runtime) (cfg : settings).

Lemma spends_check_site_or_raise (site_key : str) (site : site_info) (w : world) :
  spends 3 2 w (exec (check_site_or_raise rt cfg site_key site) w).
Proof.
  pose proof (check_site_or_raise_run rt cfg site_key site w) as Hor.
  destruct (result (check_site_or_raise rt cfg site_key site) w) eqn:Hr.
  { simpl in Hor. rewrite Hor. apply spends_check_site. }
  clear Hor. revert Hr.
  unfold check_site_or_raise. rewrite !exec_bind, !result_bind.
  set (w1 := exec (print (Checking site_key)) w).
  set (last_links := result (load_seen_links site_key) w1).
  set (w2 := exec (load_seen_links site_key) w1).
  set (resp := result (fetch_with_retry (url site) 3 5) w2).
  set (w3 := exec (fetch_with_retry (url site) 3 5) w2).
  assert (spends 3 2 w w3) as H3.
  { apply (spends_trans 0 0 3 2 w w1 w3); [apply spends_print|].
    apply (spends_trans 0 0 3 2 w1 w2 w3); [apply spends_load|apply spends_fetch]. }
  destruct resp as [anchors|]; [|done].
  destruct (extract_raises rt cfg site anchors); [by rewrite exec_ret|].
  destruct last_links as [last|]; [|done].
  cbv zeta. by destruct (decide _).
Qed.

Lemma spends_check_sites_or_raise (sites : list (str * site_info)) (w : world) :
  spends (3 * length sites) (2 * length sites) w
    (exec (check_sites_or_raise rt cfg sites) w).
Proof.
  revert w. induction sites as [|[k info] sites IH]; intros w.
  - apply spends_refl.
  - cbn [check_sites_or_raise]. rewrite exec_bind.
    destruct (spends_check_site_or_raise k info w) as (t1 & Hl1 & Hr1 & Hn1).
    change (length ((k, info) :: sites)) with (S (length sites)).
    destruct (result (check_site_or_raise rt cfg k info) w).
    + destruct (IH (exec (check_site_or_raise rt cfg k info) w))
        as (t2 & Hl2 & Hr2 & Hn2).
      exists (t1 ++ t2). rewrite Hl2, Hl1, <-app_assoc, requests_app, naps_app.
      split; [done|]. lia.
    + exists t1. rewrite exec_ret. split; [done|]. lia.
Qed.

(** The bounds hold of the cycle and of the pass as they are on any page: a
    cycle that raises has made its GETs by then and makes no other, and the
    pass it ends makes none either. The thread of [/force-check] asks at most
    three times and waits at most twice per site of the table. *)
Theorem requests_bound_of_pass (site_key : str) (site : site_info)
    (sites : list (str * site_info)) (w : world) :
  spends 3 2 w (exec (check_site_or_raise rt cfg site_key site) w) ∧
  spends (3 * length sites) (2 * length sites) w
    (exec (check_sites_or_raise rt cfg sites) w) ∧
  spends (3 * length (SITES cfg)) (2 * length (SITES cfg)) w
    (exec (run_once rt cfg) w).
Proof.
  split; [apply spends_check_site_or_raise|].
  split; [apply spends_check_sites_or_raise|].
  unfold run_once. rewrite !exec_bind.
  set (w1 := exec (print ForceCheckTriggered) w).
  assert (log w1 = log w ++ [Say ForceCheckTriggered]) as Hl1 by (by destruct w).
  destruct (spends_check_sites_or_raise (SITES cfg) w1) as (t & Hl & Hr & Hn).
  destruct (result (check_sites_or_raise rt cfg (SITES cfg)) w1).
  - rewrite exec_ret. exists ([Say ForceCheckTriggered] ++ t).
    rewrite Hl, Hl1, <-app_assoc, requests_app, naps_app.
    split; [done|]. simpl. lia.
  - set (w2 := exec (check_sites_or_raise rt cfg (SITES cfg)) w1) in *.
    unfold spends.
    assert (log (exec (print ForceCheckError) w2) = log w2 ++ [Say ForceCheckError])
      as -> by (by destruct w2).
    exists ([Say ForceCheckTriggered] ++ t ++ [Say ForceCheckError]).
    rewrite Hl, Hl1, <-!app_assoc, !requests_app, !naps_app.
    split; [done|]. simpl. lia.
Qed.

End RequestsOfPass.
